(** * The git-commit tagger of skaffold: [pkg/skaffold/build/tag/git_commit.go]

    A shallow embedding of [GitCommit.GenerateFullyQualifiedImageName] and
    [changedPaths], together with the pieces of the Go standard library and
    of go-git that they call, and the properties of the tag they compute. *)

From Stdlib Require Import ZArith Strings.Byte Ascii String.
From stdpp Require Import gmap strings list sorting vector.

Local Open Scope Z_scope.

(** ** Bytes and hexadecimal text

    Go strings and [[]byte] are both byte sequences; a [string] here is a
    list of [ascii], every [ascii] being one byte. *)

Definition bytes_of_string (s : string) : list byte := list_byte_of_string s.

Definition byte_val (b : byte) : Z := Z.of_N (Byte.to_N b).

Definition byte_of_Z (z : Z) : byte :=
  byte_of_ascii (ascii_of_N (Z.to_N (z mod 256))).

(** [encoding/hex]: [hextable = "0123456789abcdef"]. *)
Definition hextable : string := "0123456789abcdef".

Definition hexdigit (n : Z) : ascii :=
  match String.get (Z.to_nat n) hextable with
  | Some c => c
  | None => "0"%char
  end.

(** [hex.EncodeToString]: for each byte [v], [hextable[v>>4]] then
    [hextable[v&0x0f]]. *)
Fixpoint hex_EncodeToString (src : list byte) : string :=
  match src with
  | [] => EmptyString
  | v :: rest =>
      String (hexdigit (Z.shiftr (byte_val v) 4))
        (String (hexdigit (Z.land (byte_val v) 15)) (hex_EncodeToString rest))
  end.

(** A Go slice expression [s[lo:hi]] on a string; out of range it panics,
    which is [None] here. *)
Definition slice (s : string) (lo hi : nat) : option string :=
  if decide (lo ≤ hi ∧ hi ≤ String.length s)%nat
  then Some (substring lo (hi - lo) s)
  else None.

(** ** SHA-256 ([crypto/sha256], FIPS 180-4)

    32-bit words are [Z] with the wrap-around written out. *)
Module SHA256.

Definition mask32 : Z := 0xffffffff.
Definition wrap (x : Z) : Z := x mod 2 ^ 32.
Definition add (x y : Z) : Z := wrap (x + y).
Definition rotr (n x : Z) : Z :=
  Z.lor (Z.shiftr x n) (wrap (Z.shiftl x (32 - n))).
Definition not32 (x : Z) : Z := Z.lxor x mask32.

Definition Ch (e f g : Z) : Z := Z.lxor (Z.land e f) (Z.land (not32 e) g).
Definition Maj (a b c : Z) : Z :=
  Z.lxor (Z.lxor (Z.land a b) (Z.land a c)) (Z.land b c).
Definition Sigma0 (a : Z) : Z :=
  Z.lxor (Z.lxor (rotr 2 a) (rotr 13 a)) (rotr 22 a).
Definition Sigma1 (e : Z) : Z :=
  Z.lxor (Z.lxor (rotr 6 e) (rotr 11 e)) (rotr 25 e).
Definition sigma0 (x : Z) : Z :=
  Z.lxor (Z.lxor (rotr 7 x) (rotr 18 x)) (Z.shiftr x 3).
Definition sigma1 (x : Z) : Z :=
  Z.lxor (Z.lxor (rotr 17 x) (rotr 19 x)) (Z.shiftr x 10).

(** The round constants are the first 32 bits of the fractional parts of
    the cube roots of the first 64 primes, the initial chaining words those
    of the square roots of the first 8; [crypto/sha256] holds them as the
    tables [_K] and [init0 .. init7]. *)
Definition is_prime (n : nat) : bool :=
  forallb (λ d, negb (n mod d =? 0)%nat) (seq 2 (n - 2)).

Definition primes : list Z :=
  Eval vm_compute in Z.of_nat <$> filter is_prime (seq 2 310).

(** The largest [r] below [2 ^ bits] with [r ^ 3 <= n], found bit by bit. *)
Fixpoint cube_root (bits : nat) (n r : Z) : Z :=
  match bits with
  | O => r
  | S b =>
      let r' := r + 2 ^ Z.of_nat b in
      cube_root b n (if r' ^ 3 <=? n then r' else r)
  end.

Definition K : list Z :=
  Eval vm_compute in (λ p, wrap (cube_root 36 (p * 2 ^ 96) 0)) <$> primes.

(** The eight chaining words [h0 .. h7]. *)
Record state := State { h0 : Z; h1 : Z; h2 : Z; h3 : Z;
                        h4 : Z; h5 : Z; h6 : Z; h7 : Z }.

Definition frac_sqrt (p : Z) : Z := wrap (Z.sqrt (p * 2 ^ 64)).

Definition init : state :=
  Eval vm_compute in
    State (frac_sqrt 2) (frac_sqrt 3) (frac_sqrt 5) (frac_sqrt 7)
          (frac_sqrt 11) (frac_sqrt 13) (frac_sqrt 17) (frac_sqrt 19).

(** Big-endian words of a block. *)
Fixpoint words (bs : list byte) : list Z :=
  match bs with
  | b0 :: b1 :: b2 :: b3 :: rest =>
      Z.lor (Z.shiftl (byte_val b0) 24)
        (Z.lor (Z.shiftl (byte_val b1) 16)
           (Z.lor (Z.shiftl (byte_val b2) 8) (byte_val b3))) :: words rest
  | _ => []
  end.

Definition word_bytes (w : Z) : list byte :=
  [ byte_of_Z (Z.shiftr w 24); byte_of_Z (Z.shiftr w 16);
    byte_of_Z (Z.shiftr w 8); byte_of_Z w ].

(** The message schedule: [w] holds [w[0 .. i-1]]; [n] more words are
    appended. *)
Fixpoint schedule (n : nat) (w : list Z) : list Z :=
  match n with
  | O => w
  | S n' =>
      let i := length w in
      let at_ k := nth (i - k) w 0 in
      schedule n'
        (w ++ [add (add (add (sigma1 (at_ 2%nat)) (at_ 7%nat))
                      (sigma0 (at_ 15%nat))) (at_ 16%nat)])
  end.

Definition round (s : state) (kw : Z * Z) : state :=
  let '(State a b c d e f g h) := s in
  let t1 := add (add (add (add h (Sigma1 e)) (Ch e f g)) (fst kw)) (snd kw) in
  let t2 := add (Sigma0 a) (Maj a b c) in
  State (add t1 t2) a b c (add d t1) e f g.

Definition block (s : state) (bs : list byte) : state :=
  let w := schedule 48 (words bs) in
  let '(State a b c d e f g h) := fold_left round (combine K w) s in
  State (add (h0 s) a) (add (h1 s) b) (add (h2 s) c) (add (h3 s) d)
        (add (h4 s) e) (add (h5 s) f) (add (h6 s) g) (add (h7 s) h).

Fixpoint blocks (n : nat) (s : state) (bs : list byte) : state :=
  match n with
  | O => s
  | S n' => blocks n' (block s (take 64 bs)) (drop 64 bs)
  end.

(** Padding: a [0x80] byte, zeros up to 56 modulo 64, then the bit length
    as a 64-bit big-endian number. *)
Definition pad (msg : list byte) : list byte :=
  let len := Z.of_nat (length msg) in
  let bits := len * 8 in
  msg ++ [byte_of_Z 0x80]
      ++ replicate (Z.to_nat ((55 - len) mod 64)) (byte_of_Z 0)
      ++ word_bytes (Z.shiftr bits 32) ++ word_bytes bits.

Definition digest (s : state) : list byte :=
  word_bytes (h0 s) ++ word_bytes (h1 s) ++ word_bytes (h2 s)
    ++ word_bytes (h3 s) ++ word_bytes (h4 s) ++ word_bytes (h5 s)
    ++ word_bytes (h6 s) ++ word_bytes (h7 s).

Definition sum (msg : list byte) : list byte :=
  let p := pad msg in
  digest (blocks (length p / 64) init p).

End SHA256.

(** ** Errors and results

    A Go [error] value that is not [nil]; [Wrap cause msg] is what
    [errors.Wrap(cause, msg)] of [github.com/pkg/errors] builds. *)
Inductive error : Type :=
  | errorString (msg : string)
  | Wrap (cause : error) (msg : string).

(** A library call returning [(T, error)]. *)
Inductive result (T : Type) : Type :=
  | Ok (v : T)
  | Err (err : error).
Arguments Ok {T} v.
Arguments Err {T} err.

(** What a call of [GenerateFullyQualifiedImageName] does: it returns its
    pair [(string, error)], or the goroutine panics. *)
Inductive outcome : Type :=
  | Return (fqn : string) (err : option error)
  | Panic.

(** ** The go-git data the tagger reads *)

(** [git.StatusCode], a byte with these named values. *)
Inductive StatusCode : Type :=
  | Unmodified | Untracked | Modified | Added
  | Deleted | Renamed | Copied | UpdatedButUnmerged.

Global Instance StatusCode_eq_dec : EqDecision StatusCode.
Proof. solve_decision. Defined.

(** The byte behind each code, which is what [%c] prints. *)
Definition StatusCode_char (c : StatusCode) : ascii :=
  match c with
  | Unmodified => " "
  | Untracked => "?"
  | Modified => "M"
  | Added => "A"
  | Deleted => "D"
  | Renamed => "R"
  | Copied => "C"
  | UpdatedButUnmerged => "U"
  end%char.

(** [git.FileStatus]. *)
Record FileStatus : Type := { Staging : StatusCode; Worktree : StatusCode }.

(** [git.Status] is [map[string]*FileStatus]. *)
Abbreviation Status := (gmap string FileStatus).

(** The sequence of entries one [range] loop over a Go map yields: every
    entry once, in an order the runtime picks anew for each loop. *)
Definition ranges_over (status : Status)
    (entries : list (string * FileStatus)) : Prop :=
  entries ≡ₚ map_to_list status.

(** [plumbing.Hash] is [[20]byte]. *)
Abbreviation Hash := (vec byte 20).

Global Instance byte_eq_dec' : EqDecision byte := byte_eq_dec.

(** [Hash.String]. *)
Definition Hash_String (h : Hash) : string :=
  hex_EncodeToString (vec_to_list h).

(** [plumbing.Reference]: a name and the hash it points at. *)
Record Reference : Type := { Name : string; Hash_ : Hash }.

(** A [storer.ReferenceIter]: the references [Next] yields, then [io.EOF]
    ([iter_err = None]) or the error that ends the iteration early. *)
Record ReferenceIter : Type :=
  { iter_refs : list Reference; iter_err : option error }.

(** [ReferenceIter.ForEach]: call [cb] on each reference in turn; stop at the
    first error of [cb] or of the iterator.  The callback is a closure over
    variables of its caller, which are the state [S] here. *)
Fixpoint ForEach_refs {S : Type} (cb : S → Reference → S * option error)
    (refs : list Reference) (last : option error) (s : S) : S * option error :=
  match refs with
  | [] => (s, last)
  | t :: rest =>
      match cb s t with
      | (s', None) => ForEach_refs cb rest last s'
      | (s', Some err) => (s', Some err)
      end
  end.

Definition ForEach {S : Type} (it : ReferenceIter)
    (cb : S → Reference → S * option error) (s : S) : S * option error :=
  ForEach_refs cb (iter_refs it) (iter_err it) s.




(** An open file of the worktree's filesystem: the bytes its [Read] delivers
    before [io.EOF] ([read_err = None]) or before a read error. *)
Record File : Type := { contents : list byte; read_err : option error }.

(** [git.Worktree]: the result of [Status()] and of [Filesystem.Open]. *)
Record git_Worktree : Type :=
  { w_Status : result Status;
    w_Filesystem_Open : string → result File }.

(** [git.Repository]: the results of [Worktree()], [Head()] and [Tags()].
    [Tags()] returns an iterator interface value, [nil] being [None], and an
    error. *)
Record Repository : Type :=
  { repo_Worktree : result git_Worktree;
    repo_Head : result Reference;
    repo_Tags : option ReferenceIter * option error }.

(** [Options]; the tagger is handed a pointer to one, taken not to be
    [nil]. *)
Record Options : Type := { ImageName : string }.

(** ** The running SHA-256 ([hash.Hash])

    The state of [sha256.New()] is the bytes written so far; [Write] never
    fails, [Sum(nil)] is the digest of what was written. *)
Definition hash_Hash : Type := list byte.
Definition sha256_New : hash_Hash := [].
Definition Write (h : hash_Hash) (p : list byte) : hash_Hash * option error :=
  (h ++ p, None).
Definition Sum (h : hash_Hash) : list byte := SHA256.sum h.

(** [io.Copy(h, f)]: everything [f] delivers is written to [h]. *)
Definition io_Copy (h : hash_Hash) (f : File) : hash_Hash * option error :=
  match Write h (contents f) with
  | (h', Some err) => (h', Some err)
  | (h', None) => (h', read_err f)
  end.

(** ** [sort.Strings]: ascending in the byte-wise order of Go strings *)
Definition string_le (s1 s2 : string) : Prop := String.leb s1 s2 = true.

Global Instance string_le_dec s1 s2 : Decision (string_le s1 s2).
Proof. unfold string_le. apply _. Defined.

Definition sort_Strings (a : list string) : list string :=
  merge_sort string_le a.

(** [Status.IsClean] of go-git, on the entries its [range] yields. *)
Fixpoint IsClean (entries : list (string * FileStatus)) : bool :=
  match entries with
  | [] => true
  | (_, status) :: rest =>
      if decide (Worktree status ≠ Unmodified ∨ Staging status ≠ Unmodified)
      then false
      else IsClean rest
  end.

(** ** The tagger *)

(** [x, err := e; if err != nil { return "", errors.Wrap(err, msg) }]. *)
Notation "'let?' x ':=' e 'or_wrap' msg 'in' k" :=
  (match e with
   | Ok x => k
   | Err err => Return "" (Some (Wrap err msg))
   end)
  (at level 10, x name, e at level 100, msg at level 0, k at level 200,
   only parsing).

(** How the loop over the changed paths ends: it runs to its end with the
    hash [h], or one of its [return] statements (or a panic) ends the call. *)
Inductive loop_exit : Type :=
  | Finished (h : hash_Hash)
  | Returned (o : outcome).

(** The orders the two [range] loops over the status map take in one call:
    the one inside [status.IsClean()] and the one inside [changedPaths]. *)
Record ranges : Type :=
  { range_IsClean : list (string * FileStatus);
    range_changedPaths : list (string * FileStatus) }.

Definition ranges_ok (status : Status) (rg : ranges) : Prop :=
  ranges_over status (range_IsClean rg) ∧
  ranges_over status (range_changedPaths rg).

(** [fmt.Sprintf("%c %s", status, changedPath)]. *)
Definition statusLine (status : StatusCode) (changedPath : string) : string :=
  String (StatusCode_char status) (String " " changedPath).

(** [changedPaths]: [entries] is what [range status] yields. *)
Definition changedPaths (entries : list (string * FileStatus)) : list string :=
  let changes :=
    fold_left
      (λ (changes : list string) '(path, change),
         if decide (Worktree change ≠ Unmodified)
         then changes ++ [path]
         else changes)
      entries [] in
  sort_Strings changes.

(** The body of [for _, changedPath := range changedPaths(status)], with the
    paths handed to [w.Filesystem.Open], in order, as second component.
    [f.Close()] changes nothing that the result depends on and is left
    out. *)
Fixpoint hashChangedPaths (status : Status) (w : git_Worktree)
    (paths : list string) (h : hash_Hash) : loop_exit * list string :=
  match paths with
  | [] => (Finished h, [])
  | changedPath :: rest =>
      match status !! changedPath with
      | None => (Returned Panic, [])
      | Some entry =>
          let status' := Worktree entry in
          match Write h (bytes_of_string (statusLine status' changedPath)) with
          | (_, Some err) =>
              (Returned (Return "" (Some (Wrap err "adding deleted file to diff"))), [])
          | (h, None) =>
              if decide (status' = Deleted) then hashChangedPaths status w rest h
              else
                match w_Filesystem_Open w changedPath with
                | Err err =>
                    (Returned (Return "" (Some (Wrap err "reading diff"))),
                     [changedPath])
                | Ok f =>
                    match io_Copy h f with
                    | (_, Some err) =>
                        (Returned (Return "" (Some (Wrap err "reading diff"))),
                         [changedPath])
                    | (h, None) =>
                        let '(exit, opened) := hashChangedPaths status w rest h in
                        (exit, changedPath :: opened)
                    end
                end
          end
      end
  end.

Section Tagger.

(** [git.PlainOpenWithOptions(workingDir, {DetectDotGit: true})]: what the
    disk holds at and above [workingDir]. *)
Variable PlainOpenWithOptions : string → result Repository.

(** [ReferenceName.Short] of go-git. *)
Variable Short : string → string.

(** The closure handed to [tagrefs.ForEach]; it assigns the captured
    [currentTag] and returns [nil]. *)
Definition tag_callback (head : Reference) (currentTag : string)
    (t : Reference) : string * option error :=
  (if decide (Hash_ t = Hash_ head) then Short (Name t) else currentTag, None).

(** [GenerateFullyQualifiedImageName]; [rg] holds the entries its two loops
    over the status map are given by the runtime. *)
Definition GenerateFullyQualifiedImageName (rg : ranges)
    (workingDir : string) (opts : Options) : outcome :=
  let? repo := PlainOpenWithOptions workingDir or_wrap "opening git repo" in
  let? w := repo_Worktree repo or_wrap "reading worktree" in
  let? status := w_Status w or_wrap "reading status" in
  let? head := repo_Head repo or_wrap "determining current git commit" in
  let commitHash := Hash_String (Hash_ head) in
  match slice commitHash 0 7 with
  | None => Panic
  | Some currentTag =>
      if IsClean (range_IsClean rg) then
        let '(tagrefs, _) := repo_Tags repo in
        match tagrefs with
        | None => Panic
        | Some tagrefs =>
            match ForEach tagrefs (tag_callback head) currentTag with
            | (_, Some err) => Return "" (Some (Wrap err "determining git tag"))
            | (currentTag, None) =>
                Return (ImageName opts +:+ ":" +:+ currentTag) None
            end
        end
      else
        match fst (hashChangedPaths status w
                     (changedPaths (range_changedPaths rg)) sha256_New) with
        | Returned o => o
        | Finished h =>
            let sha := Sum h in
            match slice (hex_EncodeToString sha) 0 16 with
            | None => Panic
            | Some shaStr =>
                Return (ImageName opts +:+ ":" +:+ currentTag
                          +:+ "-dirty-" +:+ shaStr) None
            end
        end
  end.

End Tagger.

(** [GenerateFullyQualifiedImageName] with [opts] as the pointer it is in
    Go, [None] being [nil]: [opts.ImageName] is evaluated in the two
    [Sprintf] calls that build a result and panics there on [nil]. *)
Definition GenerateFullyQualifiedImageName_ptr
    (PlainOpenWithOptions : string → result Repository)
    (Short : string → string) (rg : ranges)
    (workingDir : string) (opts : option Options) : outcome :=
  let? repo := PlainOpenWithOptions workingDir or_wrap "opening git repo" in
  let? w := repo_Worktree repo or_wrap "reading worktree" in
  let? status := w_Status w or_wrap "reading status" in
  let? head := repo_Head repo or_wrap "determining current git commit" in
  let commitHash := Hash_String (Hash_ head) in
  match slice commitHash 0 7 with
  | None => Panic
  | Some currentTag =>
      if IsClean (range_IsClean rg) then
        let '(tagrefs, _) := repo_Tags repo in
        match tagrefs with
        | None => Panic
        | Some tagrefs =>
            match ForEach tagrefs (tag_callback Short head) currentTag with
            | (_, Some err) => Return "" (Some (Wrap err "determining git tag"))
            | (currentTag, None) =>
                match opts with
                | None => Panic
                | Some opts =>
                    Return (ImageName opts +:+ ":" +:+ currentTag) None
                end
            end
        end
      else
        match fst (hashChangedPaths status w
                     (changedPaths (range_changedPaths rg)) sha256_New) with
        | Returned o => o
        | Finished h =>
            let sha := Sum h in
            match slice (hex_EncodeToString sha) 0 16 with
            | None => Panic
            | Some shaStr =>
                match opts with
                | None => Panic
                | Some opts =>
                    Return (ImageName opts +:+ ":" +:+ currentTag
                              +:+ "-dirty-" +:+ shaStr) None
                end
            end
        end
  end.

(** ** Predicates on status entries and paths *)

Definition changed (e : string * FileStatus) : Prop :=
  Worktree e.2 ≠ Unmodified.

Global Instance changed_dec e : Decision (changed e).
Proof. unfold changed. apply _. Defined.

(** A reference whose hash is HEAD's. *)
Definition points_at (head : Reference) (t : Reference) : Prop :=
  Hash_ t = Hash_ head.

Global Instance points_at_dec head t : Decision (points_at head t).
Proof. unfold points_at. apply _. Defined.

(** Lower-case hexadecimal digits. *)
Definition is_lower_hex (c : ascii) : bool :=
  bool_decide (c ∈ list_ascii_of_string hextable).

Fixpoint string_forallb (P : ascii → bool) (s : string) : bool :=
  match s with
  | EmptyString => true
  | String c s' => P c && string_forallb P s'
  end.


(** ** The dirty hash, as the specification words it

    What one changed path contributes to the digest: its status line and,
    unless it is deleted, the content of the file in the worktree. *)
Definition file_bytes (w : git_Worktree) (path : string) : list byte :=
  match w_Filesystem_Open w path with
  | Ok f => contents f
  | Err _ => []
  end.

(** The letter of a status code in the short status format of git. *)
Definition short_status_letter (c : StatusCode) : ascii :=
  match c with
  | Modified => "M"
  | Added => "A"
  | Deleted => "D"
  | Untracked => "?"
  | Renamed => "R"
  | Copied => "C"
  | UpdatedButUnmerged => "U"
  | Unmodified => " "
  end%char.

(** The bytes ["<statusChar> <path>"]: the letter, one space, the path. *)
Definition status_line_bytes (c : StatusCode) (path : string) : list byte :=
  byte_of_ascii (short_status_letter c) :: " "%byte :: bytes_of_string path.

Definition fed_bytes (status : Status) (w : git_Worktree) (path : string)
    : list byte :=
  match status !! path with
  | Some e =>
      status_line_bytes (Worktree e) path
        ++ (if decide (Worktree e = Deleted) then [] else file_bytes w path)
  | None => []
  end.

(** The first 16 hexadecimal characters of the SHA-256 digest of what the
    paths contribute, in the order of the list. *)
Definition dirtyHash_spec (status : Status) (w : git_Worktree)
    (paths : list string) : string :=
  substring 0 16
    (hex_EncodeToString (SHA256.sum (concat (fed_bytes status w <$> paths)))).

(** A path that is not deleted can be opened and read to its end. *)
Definition readable (status : Status) (w : git_Worktree) (path : string)
    : Prop :=
  ∀ e, status !! path = Some e → Worktree e ≠ Deleted →
       ∃ f, w_Filesystem_Open w path = Ok f ∧ read_err f = None.

Definition is_deleted (status : Status) (path : string) : Prop :=
  Worktree <$> status !! path = Some Deleted.

Global Instance is_deleted_dec status path : Decision (is_deleted status path).
Proof. unfold is_deleted. apply _. Defined.

(** The status map of a clean tree, as [IsClean] reads it. *)
Definition clean (status : Status) : Prop :=
  ∀ p e, status !! p = Some e →
         Worktree e = Unmodified ∧ Staging e = Unmodified.


(** The stage labels the tagger wraps errors with. *)
Definition stage_labels : list string :=
  [ "opening git repo"; "reading worktree"; "reading status";
    "determining current git commit"; "determining git tag";
    "adding deleted file to diff"; "reading diff" ]%string.

(** ** A repository to run the tagger on

    A checkout at commit [abcdef1234567890abcdef1234567890abcdef12] with
    three tags, in several states of its working tree. *)
Module Scenario.

(** [ReferenceName.Short]: the name without its prefix [refs/],
    [refs/tags/], [refs/heads/] or [refs/remotes/]; of the prefixes that
    fit, the last of these is the one taken off. *)
Definition strip (pre name : string) : option string :=
  if String.prefix pre name
  then Some (substring (String.length pre)
               (String.length name - String.length pre) name)
  else None.

Definition Short (name : string) : string :=
  let res := name in
  let res := default res (strip "refs/" name) in
  let res := default res (strip "refs/tags/" name) in
  let res := default res (strip "refs/heads/" name) in
  default res (strip "refs/remotes/" name).

Definition commit : Hash :=
  list_to_vec [ xab; xcd; xef; x12; x34; x56; x78; x90; xab; xcd;
                xef; x12; x34; x56; x78; x90; xab; xcd; xef; x12 ].
Definition parent : Hash :=
  list_to_vec [ x00; x11; x22; x33; x44; x55; x66; x77; x88; x99;
                xaa; xbb; xcc; xdd; xee; xff; x01; x23; x45; x67 ].

Definition head : Reference :=
  {| Name := "refs/heads/master"; Hash_ := commit |}.
Definition release_1 : Reference :=
  {| Name := "refs/tags/release-1"; Hash_ := commit |}.
Definition v1_2_3 : Reference :=
  {| Name := "refs/tags/v1.2.3"; Hash_ := commit |}.
Definition v0_9 : Reference :=
  {| Name := "refs/tags/v0.9"; Hash_ := parent |}.

Definition unmodified : FileStatus :=
  {| Staging := Unmodified; Worktree := Unmodified |}.

Definition clean_status : Status := {[ "README.md"%string := unmodified ]}.

Definition dirty_status : Status :=
  <[ "src/main.go"%string := {| Staging := Unmodified; Worktree := Modified |} ]>
    (<[ "old.txt"%string := {| Staging := Unmodified; Worktree := Deleted |} ]>
       (<[ "notes.txt"%string := {| Staging := Untracked; Worktree := Untracked |} ]>
          clean_status)).

Definition staged_status : Status :=
  <[ "src/main.go"%string := {| Staging := Modified; Worktree := Unmodified |} ]>
    clean_status.

Definition not_exist : error := errorString "file does not exist".

(** The files of the working tree; [old.txt] is gone. *)
Definition Open (path : string) : result File :=
  if decide (path = "src/main.go"%string) then
    Ok {| contents := bytes_of_string ("package main" +:+ String "010" "");
          read_err := None |}
  else if decide (path = "notes.txt"%string) then
    Ok {| contents := bytes_of_string "todo"; read_err := None |}
  else if decide (path = "README.md"%string) then
    Ok {| contents := bytes_of_string "# app"; read_err := None |}
  else Err not_exist.

Definition worktree (status : Status) : git_Worktree :=
  {| w_Status := Ok status; w_Filesystem_Open := Open |}.



Definition repo (status : Status)
    (tags : option ReferenceIter * option error) : Repository :=
  {| repo_Worktree := Ok (worktree status);
     repo_Head := Ok head;
     repo_Tags := tags |}.

Definition PlainOpen (r : Repository) (workingDir : string)
    : result Repository :=
  if decide (workingDir = "/src/app"%string) then Ok r
  else Err (errorString "repository does not exist").

Definition tags (refs : list Reference) : option ReferenceIter * option error :=
  (Some {| iter_refs := refs; iter_err := None |}, None).

(** [Tags()] fails: no iterator, an error. *)
Definition tags_fail : option ReferenceIter * option error :=
  (None, Some (errorString "open .git/packed-refs: permission denied")).

(** Two orders for the two loops over the status map. *)
Definition orders (status : Status) : ranges :=
  {| range_IsClean := map_to_list status;
     range_changedPaths := reverse (map_to_list status) |}.

Definition orders' (status : Status) : ranges :=
  {| range_IsClean := reverse (map_to_list status);
     range_changedPaths := map_to_list status |}.

Definition opts : Options := {| ImageName := "myapp" |}.

(** One call of the tagger in [/src/app]. *)
Definition run (status : Status)
    (tags : option ReferenceIter * option error) : outcome :=
  GenerateFullyQualifiedImageName (PlainOpen (repo status tags)) Short
    (orders status) "/src/app" opts.

End Scenario.

(** ** Further vocabulary for the properties below *)

(** What goes wrong when [path] is opened and copied into the hash. *)
Definition read_failure (w : git_Worktree) (path : string) : option error :=
  match w_Filesystem_Open w path with
  | Err err => Some err
  | Ok f => read_err f
  end.

(** The stage labels a returned error can carry. *)
Definition returned_labels : list string :=
  [ "opening git repo"; "reading worktree"; "reading status";
    "determining current git commit"; "determining git tag";
    "reading diff" ]%string.

(** More states of the repository of [Scenario]. *)
Module Cases.

(** [src/main.go] opens but its reading breaks off. *)
Definition Open_broken (path : string) : result File :=
  if decide (path = "src/main.go"%string) then
    Ok {| contents := bytes_of_string "pack";
          read_err := Some (errorString "input/output error") |}
  else Scenario.Open path.

Definition worktree_broken (status : Status) : git_Worktree :=
  {| w_Status := Ok status; w_Filesystem_Open := Open_broken |}.

(** No file can be opened at all. *)
Definition worktree_closed (status : Status) : git_Worktree :=
  {| w_Status := Ok status;
     w_Filesystem_Open := λ _, Err Scenario.not_exist |}.

Definition repo_on (w : git_Worktree)
    (tags : option ReferenceIter * option error) : Repository :=
  {| repo_Worktree := Ok w;
     repo_Head := Ok Scenario.head;
     repo_Tags := tags |}.

(** A repository without a commit: [Head()] fails. *)
Definition unborn : Repository :=
  {| repo_Worktree := Ok (Scenario.worktree Scenario.dirty_status);
     repo_Head := Err (errorString "reference not found");
     repo_Tags := Scenario.tags [] |}.


(** Only a deletion. *)
Definition deleted_status : Status :=
  <[ "old.txt"%string := {| Staging := Deleted; Worktree := Deleted |} ]>
    Scenario.clean_status.

(** One modified file whose content ends like the status line and content
    of a second one. *)
Definition modified : FileStatus :=
  {| Staging := Unmodified; Worktree := Modified |}.
Definition one_file_status : Status := {[ "a.txt"%string := modified ]}.
Definition two_files_status : Status :=
  <[ "a.txt"%string := modified ]> {[ "b.txt"%string := modified ]}.

Definition files (status : Status) (a b : list byte) : git_Worktree :=
  {| w_Status := Ok status;
     w_Filesystem_Open := λ path,
       if decide (path = "a.txt"%string)
       then Ok {| contents := a; read_err := None |}
       else Ok {| contents := b; read_err := None |} |}.

End Cases.

(** * Properties *)

(** ** The order of [sort.Strings] *)

Lemma ascii_compare_refl (a : ascii) : Ascii.compare a a = Eq.
Proof. unfold Ascii.compare. apply N.compare_refl. Qed.

Lemma ascii_compare_lt_trans (a b c : ascii) :
  Ascii.compare a b = Lt → Ascii.compare b c = Lt → Ascii.compare a c = Lt.
Proof.
  unfold Ascii.compare. rewrite !N.compare_lt_iff. apply N.lt_trans.
Qed.

Lemma string_compare_trans (s1 s2 s3 : string) :
  String.compare s1 s2 ≠ Gt → String.compare s2 s3 ≠ Gt →
  String.compare s1 s3 ≠ Gt.
Proof.
  revert s2 s3.
  induction s1 as [|a s1 IH]; intros [|b s2] [|c s3]; simpl; try done.
  destruct (Ascii.compare a b) eqn:Hab; [| |done];
    destruct (Ascii.compare b c) eqn:Hbc; try done.
  - apply Ascii.compare_eq_iff in Hab, Hbc. subst.
    rewrite ascii_compare_refl. apply IH.
  - apply Ascii.compare_eq_iff in Hab. subst. by rewrite Hbc.
  - apply Ascii.compare_eq_iff in Hbc. subst. by rewrite Hab.
  - by rewrite (ascii_compare_lt_trans _ _ _ Hab Hbc).
Qed.

Lemma string_le_compare (s1 s2 : string) :
  string_le s1 s2 ↔ String.compare s1 s2 ≠ Gt.
Proof. unfold string_le, String.leb. by destruct (String.compare s1 s2). Qed.

Global Instance string_le_trans : Transitive string_le.
Proof.
  intros s1 s2 s3. rewrite !string_le_compare. apply string_compare_trans.
Qed.

Global Instance string_le_total : Total string_le.
Proof. intros s1 s2. apply String.leb_total. Qed.

Global Instance string_le_antisym : AntiSymm (=) string_le.
Proof. intros s1 s2. apply String.leb_antisym. Qed.

Example sort_Strings_bytewise :
  sort_Strings ["b"; "a/b"; "a"; "B"; "a.go"; ""]%string
  = [""; "B"; "a"; "a.go"; "a/b"; "b"]%string.
Proof. vm_compute. reflexivity. Qed.

Lemma sort_Strings_Sorted (a : list string) : Sorted string_le (sort_Strings a).
Proof. apply (Sorted_merge_sort string_le). Qed.

Lemma sort_Strings_Permutation (a : list string) : sort_Strings a ≡ₚ a.
Proof. apply (merge_sort_Permutation string_le). Qed.

(** Sorting forgets the order of its input. *)
Lemma sort_Strings_perm (a b : list string) :
  a ≡ₚ b → sort_Strings a = sort_Strings b.
Proof.
  intros Hab. apply (Sorted_unique string_le); auto using sort_Strings_Sorted.
  by rewrite !sort_Strings_Permutation.
Qed.

(** ** [changedPaths] *)

Lemma changes_fold (entries : list (string * FileStatus)) (acc : list string) :
  fold_left
    (λ (changes : list string) '(path, change),
       if decide (Worktree change ≠ Unmodified)
       then changes ++ [path] else changes) entries acc
  = acc ++ (filter changed entries).*1.
Proof.
  revert acc. induction entries as [|[path change] entries IH]; intros acc.
  - by rewrite app_nil_r.
  - cbn [fold_left]. rewrite IH, filter_cons. unfold changed at 2. cbn [snd].
    destruct (decide (Worktree change ≠ Unmodified)); [|done].
    by rewrite <- app_assoc.
Qed.

Lemma changedPaths_eq (entries : list (string * FileStatus)) :
  changedPaths entries = sort_Strings (filter changed entries).*1.
Proof. unfold changedPaths. by rewrite changes_fold. Qed.

Lemma changedPaths_Sorted (entries : list (string * FileStatus)) :
  Sorted string_le (changedPaths entries).
Proof. apply sort_Strings_Sorted. Qed.

Lemma changedPaths_perm (e1 e2 : list (string * FileStatus)) :
  e1 ≡ₚ e2 → changedPaths e1 = changedPaths e2.
Proof.
  intros H. rewrite !changedPaths_eq. apply sort_Strings_perm. by rewrite H.
Qed.

Lemma elem_of_changedPaths (status : Status) entries (p : string) :
  ranges_over status entries →
  p ∈ changedPaths entries ↔
  ∃ e, status !! p = Some e ∧ Worktree e ≠ Unmodified.
Proof.
  intros H. rewrite changedPaths_eq, sort_Strings_Permutation, H.
  rewrite list_elem_of_fmap. split.
  - intros [[p' e] [-> [Hc Hin]%list_elem_of_filter]].
    apply elem_of_map_to_list in Hin. eauto.
  - intros (e & Hl & Hc). exists (p, e). split; [done|].
    apply list_elem_of_filter. split; [done|]. by apply elem_of_map_to_list.
Qed.

Lemma changedPaths_NoDup (status : Status) entries :
  ranges_over status entries → NoDup (changedPaths entries).
Proof.
  intros H. rewrite changedPaths_eq, sort_Strings_Permutation, H.
  apply (NoDup_fmap_fst _).
  - intros p e1 e2 [_ H1%elem_of_map_to_list]%list_elem_of_filter
      [_ H2%elem_of_map_to_list]%list_elem_of_filter. congruence.
  - apply NoDup_filter, NoDup_map_to_list.
Qed.

Lemma IsClean_true (entries : list (string * FileStatus)) :
  IsClean entries = true ↔
  Forall (λ e, Worktree e.2 = Unmodified ∧ Staging e.2 = Unmodified) entries.
Proof.
  induction entries as [|[p e] entries IH]; simpl.
  - split; [constructor|done].
  - rewrite Forall_cons. simpl. case_decide as Hd.
    + split; [done|]. intros [[? ?] _]. destruct Hd; congruence.
    + rewrite IH. split; [|by intros [_ ?]].
      intros Hrest. split; [|done].
      split; apply dec_stable; intros ?; apply Hd; auto.
Qed.

Lemma IsClean_perm (e1 e2 : list (string * FileStatus)) :
  e1 ≡ₚ e2 → IsClean e1 = IsClean e2.
Proof.
  intros H. apply eq_true_iff_eq. rewrite !IsClean_true. by rewrite H.
Qed.

(** ** SHA-256 on the standard test vectors *)

Example sha256_tables :
  length SHA256.K = 64%nat
  ∧ head SHA256.K = Some 0x428a2f98 ∧ last SHA256.K = Some 0xc67178f2
  ∧ SHA256.h0 SHA256.init = 0x6a09e667 ∧ SHA256.h7 SHA256.init = 0x5be0cd19.
Proof. repeat split. Qed.

Example sha256_empty :
  hex_EncodeToString (SHA256.sum []) =
  "e3b0c44298fc1c149afbf4c8996fb92427ae41e4649b934ca495991b7852b855"%string.
Proof. vm_compute. reflexivity. Qed.

Example sha256_abc :
  hex_EncodeToString (SHA256.sum (bytes_of_string "abc")) =
  "ba7816bf8f01cfea414140de5dae2223b00361a396177a9cb410ff61f20015ad"%string.
Proof. vm_compute. reflexivity. Qed.

Example sha256_two_blocks :
  hex_EncodeToString (SHA256.sum (replicate 56 "a"%byte)) =
  "b35439a4ac6f0948b6d6f9e3c6af0f5f590ce20f1bde7090ef7970686ec6738a"%string.
Proof. vm_compute. reflexivity. Qed.

Example sha256_119 :
  hex_EncodeToString (SHA256.sum (replicate 119 "a"%byte)) =
  "31eba51c313a5c08226adf18d4a359cfdfd8d2e816b13f4af952f7ea6584dcfb"%string.
Proof. vm_compute. reflexivity. Qed.

(** ** Hexadecimal text and the two slices *)

Lemma hex_EncodeToString_length (src : list byte) :
  String.length (hex_EncodeToString src) = (2 * length src)%nat.
Proof. induction src as [|v src IH]; simpl; [done|]. rewrite IH. lia. Qed.

Lemma Hash_String_length (h : Hash) : String.length (Hash_String h) = 40%nat.
Proof.
  unfold Hash_String. by rewrite hex_EncodeToString_length, length_vec_to_list.
Qed.

Lemma SHA256_sum_length (msg : list byte) : length (SHA256.sum msg) = 32%nat.
Proof. reflexivity. Qed.

Lemma slice_Some (s : string) (lo hi : nat) :
  (lo ≤ hi)%nat → (hi ≤ String.length s)%nat →
  slice s lo hi = Some (substring lo (hi - lo) s).
Proof. intros. unfold slice. by rewrite decide_True. Qed.

Lemma slice_commitHash (h : Hash) :
  slice (Hash_String h) 0 7 = Some (substring 0 7 (Hash_String h)).
Proof. apply slice_Some; [lia|]. rewrite Hash_String_length. lia. Qed.

Lemma slice_sha (msg : list byte) :
  slice (hex_EncodeToString (Sum msg)) 0 16
  = Some (substring 0 16 (hex_EncodeToString (Sum msg))).
Proof.
  apply slice_Some; [lia|].
  unfold Sum. rewrite hex_EncodeToString_length, SHA256_sum_length. lia.
Qed.

Lemma substring_length (n m : nat) (s : string) :
  (n + m ≤ String.length s)%nat → String.length (substring n m s) = m.
Proof.
  revert n m. induction s as [|c s IH]; intros [|n] [|m]; simpl; try lia.
  - intros. rewrite IH; lia.
  - intros. apply (IH n 0%nat). lia.
  - intros. apply IH. lia.
Qed.

Lemma hexdigit_hi_lower (v : byte) :
  is_lower_hex (hexdigit (Z.shiftr (byte_val v) 4)) = true.
Proof. destruct v; vm_compute; reflexivity. Qed.

Lemma hexdigit_lo_lower (v : byte) :
  is_lower_hex (hexdigit (Z.land (byte_val v) 15)) = true.
Proof. destruct v; vm_compute; reflexivity. Qed.

Lemma hex_EncodeToString_lower (src : list byte) :
  string_forallb is_lower_hex (hex_EncodeToString src) = true.
Proof.
  induction src as [|v src IH]; [done|].
  cbn [hex_EncodeToString string_forallb].
  by rewrite hexdigit_hi_lower, hexdigit_lo_lower, IH.
Qed.

Lemma substring_forallb (P : ascii → bool) (n m : nat) (s : string) :
  string_forallb P s = true → string_forallb P (substring n m s) = true.
Proof.
  revert n m. induction s as [|c s IH]; intros [|n] [|m]; simpl; try done.
  - intros [Hc Hs]%andb_prop. by rewrite Hc, (IH 0%nat m Hs).
  - intros [_ Hs]%andb_prop. by apply IH.
  - intros [_ Hs]%andb_prop. by apply IH.
Qed.

Lemma IsClean_clean (status : Status) entries :
  ranges_over status entries → IsClean entries = true ↔ clean status.
Proof.
  intros H. rewrite IsClean_true, H, Forall_forall. unfold clean. split.
  - intros Hall p e Hp. apply (Hall (p, e)). by apply elem_of_map_to_list.
  - intros Hall [p e] Hp%elem_of_map_to_list. by apply (Hall p).
Qed.

Lemma IsClean_dirty (status : Status) entries p e :
  ranges_over status entries →
  status !! p = Some e →
  Worktree e ≠ Unmodified ∨ Staging e ≠ Unmodified →
  IsClean entries = false.
Proof.
  intros H Hp Hd. apply not_true_is_false.
  rewrite (IsClean_clean status) by done. intros Hc.
  destruct (Hc p e Hp) as [Hw Hs]. by destruct Hd.
Qed.

(** ** The loop over the changed paths *)

(** The line the code formats is the letter, a space and the path. *)
Lemma statusLine_bytes (c : StatusCode) (path : string) :
  bytes_of_string (statusLine c path) = status_line_bytes c path.
Proof. by destruct c. Qed.

Lemma hashChangedPaths_Finished (status : Status) w paths h :
  Forall (λ p, is_Some (status !! p)) paths →
  Forall (readable status w) paths →
  hashChangedPaths status w paths h
  = (Finished (h ++ concat (fed_bytes status w <$> paths)),
     filter (λ p, ¬ is_deleted status p) paths).
Proof.
  revert h. induction paths as [|p paths IH]; intros h Hdom Hread.
  - simpl. by rewrite app_nil_r.
  - apply Forall_cons in Hdom as [[e He] Hdom].
    apply Forall_cons in Hread as [Hp Hread].
    assert (Hfed : fed_bytes status w p
                   = bytes_of_string (statusLine (Worktree e) p)
                     ++ (if decide (Worktree e = Deleted) then []
                         else file_bytes w p)).
    { unfold fed_bytes. by rewrite He, statusLine_bytes. }
    assert (Hdel : is_deleted status p ↔ Worktree e = Deleted).
    { unfold is_deleted. rewrite He. simpl. split; congruence. }
    cbn [hashChangedPaths fmap list_fmap concat].
    rewrite He, filter_cons, Hfed. cbn [Write].
    destruct (decide (Worktree e = Deleted)) as [Hd|Hd].
    + rewrite decide_False by (by rewrite Hdel; intros Hn; apply Hn).
      rewrite IH by done. by rewrite app_nil_r, <- app_assoc.
    + rewrite decide_True by (by rewrite Hdel).
      destruct (Hp e He Hd) as (f & Hf & Hr).
      unfold file_bytes. rewrite Hf. unfold io_Copy, Write. rewrite Hr.
      rewrite IH by done. by rewrite <- !app_assoc.
Qed.



(** ** The tag enumeration *)

Lemma ForEach_tag_callback (Short : string → string) (head : Reference)
    (refs : list Reference) (end_err : option error) (currentTag : string) :
  ForEach_refs (tag_callback Short head) refs end_err currentTag
  = (match last (filter (points_at head) refs) with
     | Some t => Short (Name t)
     | None => currentTag
     end, end_err).
Proof.
  revert currentTag. induction refs as [|t refs IH]; intros cur; [done|].
  cbn [ForEach_refs]. unfold tag_callback at 1. rewrite IH, filter_cons.
  unfold points_at at 2. f_equal.
  destruct (decide (Hash_ t = Hash_ head)) as [Heq|Hne]; [|done].
  destruct (filter (points_at head) refs) as [|t' l] eqn:Hf; [done|].
  rewrite last_cons_cons.
  destruct (last (t' :: l)) eqn:Hlast; [done|]. by apply last_None in Hlast.
Qed.

(** What the hash has been fed when the loop runs to its end. *)
Lemma hashChangedPaths_fed (status : Status) w paths h h' :
  (hashChangedPaths status w paths h).1 = Finished h' →
  h' = h ++ concat (fed_bytes status w <$> paths).
Proof.
  revert h. induction paths as [|p paths IH]; intros h; simpl.
  - intros [= <-]. by rewrite app_nil_r.
  - unfold fed_bytes at 1. destruct (status !! p) as [e|]; [|done].
    rewrite <- statusLine_bytes. case_decide as Hdel.
    + intros ->%IH. by rewrite app_nil_r, <- app_assoc.
    + unfold file_bytes.
      destruct (w_Filesystem_Open w p) as [f|err]; [|done].
      unfold io_Copy, Write. destruct (read_err f); [done|].
      destruct (hashChangedPaths status w paths _) as [exit opened] eqn:Hrun.
      simpl. intros ->. rewrite (IH _ (f_equal fst Hrun)).
      by rewrite <- !app_assoc.
Qed.

(** The loop leaves the call only by a wrapped error and an empty tag, or,
    at a path missing from the status map, by a panic. *)
Lemma hashChangedPaths_Returned (status : Status) w paths h o :
  (hashChangedPaths status w paths h).1 = Returned o →
  (o = Panic ∧ ∃ p, p ∈ paths ∧ status !! p = None)
  ∨ ∃ cause, o = Return "" (Some (Wrap cause "reading diff")).
Proof.
  revert h. induction paths as [|p paths IH]; intros h; simpl; [done|].
  assert (Hrest : ∀ h0, (hashChangedPaths status w paths h0).1 = Returned o →
            (o = Panic ∧ ∃ q, q ∈ p :: paths ∧ status !! q = None)
            ∨ ∃ cause, o = Return "" (Some (Wrap cause "reading diff"))).
  { intros h0 [(-> & q & Hq & Hn)|Hc]%IH; [left|by right].
    split; [done|]. exists q. split; [by right|done]. }
  destruct (status !! p) as [e|] eqn:He.
  - case_decide as Hdel; [apply Hrest|].
    destruct (w_Filesystem_Open w p) as [f|err]; [|intros [= <-]; eauto].
    unfold io_Copy, Write. destruct (read_err f); [intros [= <-]; eauto|].
    destruct (hashChangedPaths status w paths _) as [exit opened] eqn:Hrun.
    simpl. intros ->. apply (Hrest _ (f_equal fst Hrun)).
  - intros [= <-]. left. split; [done|]. exists p. split; [by left|done].
Qed.

(** When the loop runs to its end, every path it met could be read. *)
Lemma hashChangedPaths_readable (status : Status) w paths h h' :
  (hashChangedPaths status w paths h).1 = Finished h' →
  Forall (readable status w) paths.
Proof.
  revert h. induction paths as [|p paths IH]; intros h; simpl; [constructor|].
  destruct (status !! p) as [e|] eqn:He; [|done].
  case_decide as Hdel.
  - intros Hrun. constructor; [|by eapply IH].
    intros e' He' Hd. congruence.
  - destruct (w_Filesystem_Open w p) as [f|err] eqn:Hf; [|done].
    unfold io_Copy, Write. destruct (read_err f) eqn:Hr; [done|].
    destruct (hashChangedPaths status w paths _) as [exit opened] eqn:Hrun.
    simpl. intros ->. constructor; [|by eapply IH, (f_equal fst Hrun)].
    intros e' He' Hd. eauto.
Qed.

Section Properties.

Variable PlainOpenWithOptions : string → result Repository.
Variable Short : string → string.

Local Abbreviation Generate :=
  (GenerateFullyQualifiedImageName PlainOpenWithOptions Short).

(** The tag of a call that gets as far as the short hash. *)
Lemma Generate_unfold rg workingDir opts repo w status head :
  PlainOpenWithOptions workingDir = Ok repo →
  repo_Worktree repo = Ok w →
  w_Status w = Ok status →
  repo_Head repo = Ok head →
  Generate rg workingDir opts =
  let currentTag := substring 0 7 (Hash_String (Hash_ head)) in
  if IsClean (range_IsClean rg) then
    match (repo_Tags repo).1 with
    | None => Panic
    | Some tagrefs =>
        match ForEach tagrefs (tag_callback Short head) currentTag with
        | (_, Some err) => Return "" (Some (Wrap err "determining git tag"))
        | (currentTag, None) =>
            Return (ImageName opts +:+ ":" +:+ currentTag) None
        end
    end
  else
    match (hashChangedPaths status w
             (changedPaths (range_changedPaths rg)) sha256_New).1 with
    | Returned o => o
    | Finished h =>
        Return (ImageName opts +:+ ":" +:+ currentTag +:+ "-dirty-"
                  +:+ substring 0 16 (hex_EncodeToString (Sum h))) None
    end.
Proof.
  intros Hopen Hw Hst Hhead. unfold GenerateFullyQualifiedImageName.
  rewrite Hopen, Hw, Hst, Hhead, slice_commitHash. cbn zeta.
  destruct (IsClean (range_IsClean rg)).
  - by destruct (repo_Tags repo) as [tagrefs terr].
  - destruct (hashChangedPaths _ _ _ _).1 as [h|o]; [|done].
    by rewrite slice_sha.
Qed.

(** C1. In a dirty working tree (some entry's status code is not
    unmodified) whose changed files that are not deleted can all be read,
    the call returns
    [imageName + ":" + shortHash + "-dirty-" + dirtyHash] and no error,
    where [dirtyHash] is the first 16 hexadecimal characters of the SHA-256
    digest of, for each changed path in sorted order, the bytes of
    ["<statusChar> <path>"] followed, unless the path is deleted, by the
    content of the file. *)
Theorem dirty_tag rg workingDir opts repo w status head :
  PlainOpenWithOptions workingDir = Ok repo →
  repo_Worktree repo = Ok w →
  w_Status w = Ok status →
  repo_Head repo = Ok head →
  ranges_ok status rg →
  (∃ p e, status !! p = Some e ∧ Worktree e ≠ Unmodified) →
  (∀ p e, status !! p = Some e → Worktree e ≠ Unmodified →
          readable status w p) →
  ∃ paths,
    Sorted string_le paths ∧ NoDup paths ∧
    (∀ p, p ∈ paths ↔ ∃ e, status !! p = Some e ∧ Worktree e ≠ Unmodified) ∧
    Generate rg workingDir opts =
      Return (ImageName opts +:+ ":"
                +:+ substring 0 7 (Hash_String (Hash_ head))
                +:+ "-dirty-" +:+ dirtyHash_spec status w paths) None.
Proof.
  intros Hopen Hw Hst Hhead [Hr1 Hr2] (p & e & Hp & Hch) Hread.
  exists (changedPaths (range_changedPaths rg)).
  split; [apply changedPaths_Sorted|].
  split; [by apply (changedPaths_NoDup status)|].
  split; [intros q; by apply elem_of_changedPaths|].
  rewrite (Generate_unfold _ _ _ _ _ _ _ Hopen Hw Hst Hhead). cbn zeta.
  rewrite (IsClean_dirty status _ p e) by auto.
  rewrite hashChangedPaths_Finished.
  - done.
  - apply Forall_forall. intros q Hq.
    apply (elem_of_changedPaths status) in Hq as (e' & He' & _); eauto.
  - apply Forall_forall. intros q Hq.
    apply (elem_of_changedPaths status) in Hq as (e' & He' & Hc'); eauto.
Qed.


(** C2. In a clean tree with no tag pointing at HEAD the call returns
    exactly [imageName + ":"] followed by the first 7 characters of the
    hexadecimal text of HEAD's commit identifier; these are 7 lower-case
    hexadecimal digits. *)
Theorem clean_untagged_tag rg workingDir opts repo w status head tagrefs :
  PlainOpenWithOptions workingDir = Ok repo →
  repo_Worktree repo = Ok w →
  w_Status w = Ok status →
  repo_Head repo = Ok head →
  ranges_ok status rg →
  clean status →
  repo_Tags repo = (Some tagrefs, None) →
  iter_err tagrefs = None →
  Forall (λ t, Hash_ t ≠ Hash_ head) (iter_refs tagrefs) →
  let shortHash := substring 0 7 (hex_EncodeToString (vec_to_list (Hash_ head))) in
  Generate rg workingDir opts = Return (ImageName opts +:+ ":" +:+ shortHash) None
  ∧ String.length shortHash = 7%nat
  ∧ string_forallb is_lower_hex shortHash = true.
Proof.
  intros Hopen Hw Hst Hhead [Hr1 Hr2] Hclean Htags Hend Hnone shortHash.
  split; [|split].
  - rewrite (Generate_unfold _ _ _ _ _ _ _ Hopen Hw Hst Hhead). cbn zeta.
    rewrite (proj2 (IsClean_clean status _ Hr1) Hclean), Htags. cbn [fst].
    unfold ForEach. rewrite ForEach_tag_callback, Hend.
    replace (filter (points_at head) (iter_refs tagrefs)) with (@nil Reference);
      [done|].
    symmetry. induction Hnone as [|t refs Ht _ IH]; [done|].
    rewrite filter_cons. by rewrite decide_False.
  - apply substring_length.
    rewrite hex_EncodeToString_length, length_vec_to_list. lia.
  - apply substring_forallb, hex_EncodeToString_lower.
Qed.

(** C4. Two calls on the same working directory, image name, repository
    state, status map and file contents return the same result in a dirty
    tree, whatever order each call's loops over the status map take. *)
Theorem dirty_deterministic rg1 rg2 workingDir opts repo w status :
  PlainOpenWithOptions workingDir = Ok repo →
  repo_Worktree repo = Ok w →
  w_Status w = Ok status →
  ranges_ok status rg1 →
  ranges_ok status rg2 →
  ¬ clean status →
  Generate rg1 workingDir opts = Generate rg2 workingDir opts.
Proof.
  intros Hopen Hw Hst [Hc1 Hp1] [Hc2 Hp2] _.
  unfold GenerateFullyQualifiedImageName. rewrite Hopen, Hw, Hst.
  rewrite (IsClean_perm (range_IsClean rg1) (range_IsClean rg2))
    by (by rewrite Hc1, Hc2).
  rewrite (changedPaths_perm (range_changedPaths rg1) (range_changedPaths rg2))
    by (by rewrite Hp1, Hp2).
  done.
Qed.

(** C9. When the tree is not clean but every entry's worktree code is
    unmodified, no path is hashed and the result is
    [imageName + ":" + shortHash + "-dirty-e3b0c44298fc1c14"], the suffix
    being the start of the SHA-256 digest of the empty input.  In general
    the changed paths and what is fed to the digest depend on the
    worktree codes only: two status maps with the same paths and the same
    worktree codes give the same paths and the same run of the loop. *)
Theorem staged_only_tag :
  (∀ rg workingDir opts repo w status head,
     PlainOpenWithOptions workingDir = Ok repo →
     repo_Worktree repo = Ok w →
     w_Status w = Ok status →
     repo_Head repo = Ok head →
     ranges_ok status rg →
     ¬ clean status →
     (∀ p e, status !! p = Some e → Worktree e = Unmodified) →
     changedPaths (range_changedPaths rg) = [] ∧
     substring 0 16 (hex_EncodeToString (SHA256.sum [])) = "e3b0c44298fc1c14" ∧
     Generate rg workingDir opts =
       Return (ImageName opts +:+ ":"
                 +:+ substring 0 7 (Hash_String (Hash_ head))
                 +:+ "-dirty-e3b0c44298fc1c14") None)
  ∧ (∀ (status1 status2 : Status) entries1 entries2 w h,
       Worktree <$> status1 = Worktree <$> status2 →
       ranges_over status1 entries1 →
       ranges_over status2 entries2 →
       changedPaths entries1 = changedPaths entries2 ∧
       hashChangedPaths status1 w (changedPaths entries1) h
       = hashChangedPaths status2 w (changedPaths entries2) h).
Proof.
  split.
  - intros rg workingDir opts repo w status head
      Hopen Hw Hst Hhead [Hr1 Hr2] Hdirty Hall.
    assert (Hnil : changedPaths (range_changedPaths rg) = []).
    { apply elem_of_nil_inv. intros p Hp.
      apply (elem_of_changedPaths status) in Hp as (e & He & Hc); [|done].
      by apply Hc, (Hall p). }
    split; [done|]. split; [by vm_compute|].
    rewrite (Generate_unfold _ _ _ _ _ _ _ Hopen Hw Hst Hhead). cbn zeta.
    rewrite Hnil.
    destruct (IsClean (range_IsClean rg)) eqn:Hc.
    + by apply (IsClean_clean status) in Hc.
    + cbn [hashChangedPaths fst]. by vm_compute (substring 0 16 _).
  - intros status1 status2 entries1 entries2 w h Hsame Hr1 Hr2.
    assert (Hlook : ∀ p, Worktree <$> status1 !! p = Worktree <$> status2 !! p).
    { intros p. by rewrite <- !lookup_fmap, Hsame. }
    assert (Hpaths : changedPaths entries1 = changedPaths entries2).
    { apply (Sorted_unique string_le); [apply changedPaths_Sorted..|].
      apply NoDup_Permutation;
        [by apply (changedPaths_NoDup status1)
        |by apply (changedPaths_NoDup status2)|].
      intros p.
      rewrite (elem_of_changedPaths status1), (elem_of_changedPaths status2)
        by done.
      specialize (Hlook p).
      destruct (status1 !! p) as [e1|], (status2 !! p) as [e2|];
        simplify_eq/=; [|naive_solver..].
      split; intros (e & ? & ?); simplify_eq; eexists; split; eauto; congruence. }
    split; [done|]. rewrite <- Hpaths.
    generalize (changedPaths entries1). intros paths. revert h.
    induction paths as [|p paths IH]; intros h; [done|].
    cbn [hashChangedPaths]. specialize (Hlook p).
    destruct (status1 !! p) as [e1|], (status2 !! p) as [e2|];
      simplify_eq/=; [|done].
    rewrite Hlook. case_decide; [apply IH|].
    destruct (w_Filesystem_Open w p) as [f|]; [|done].
    unfold io_Copy, Write. destruct (read_err f); [done|]. by rewrite IH.
Qed.

(** ** Failures *)

Local Ltac in_labels :=
  repeat first [apply list_elem_of_here | apply list_elem_of_further].

(** Every error the call returns is a wrapped one, under one of the stage
    labels, and comes with the empty tag. *)
Lemma Generate_error_atomic rg workingDir opts fqn err :
  Generate rg workingDir opts = Return fqn (Some err) →
  fqn = "" ∧ ∃ cause label, err = Wrap cause label ∧ label ∈ stage_labels.
Proof.
  assert (Hlabel : ∀ cause label, label ∈ stage_labels →
            ∀ o, o = Return "" (Some (Wrap cause label)) →
            o = Return fqn (Some err) →
            fqn = "" ∧ ∃ cause label, err = Wrap cause label
                                      ∧ label ∈ stage_labels).
  { intros cause label Hin o -> [= <- <-]. eauto. }
  unfold GenerateFullyQualifiedImageName, stage_labels in *.
  destruct (PlainOpenWithOptions workingDir) as [repo|e];
    [|eapply Hlabel; [|done]; in_labels].
  destruct (repo_Worktree repo) as [w|e];
    [|eapply Hlabel; [|done]; in_labels].
  destruct (w_Status w) as [status|e];
    [|eapply Hlabel; [|done]; in_labels].
  destruct (repo_Head repo) as [head|e];
    [|eapply Hlabel; [|done]; in_labels].
  rewrite slice_commitHash.
  destruct (IsClean (range_IsClean rg)).
  - destruct (repo_Tags repo) as [[tagrefs|] terr]; [|done].
    destruct (ForEach tagrefs _ _) as [tag [e|]]; [|done].
    eapply Hlabel; [|done]; in_labels.
  - destruct (hashChangedPaths _ _ _ _).1 as [h|o] eqn:Hrun.
    + by rewrite slice_sha.
    + apply hashChangedPaths_Returned in Hrun as [[-> _]|[cause ->]]; [done|].
      eapply Hlabel; [|done]; in_labels.
Qed.

Lemma Generate_open_fails rg workingDir opts e :
  PlainOpenWithOptions workingDir = Err e →
  Generate rg workingDir opts = Return "" (Some (Wrap e "opening git repo")).
Proof. intros H. unfold GenerateFullyQualifiedImageName. by rewrite H. Qed.

Lemma Generate_worktree_fails rg workingDir opts repo e :
  PlainOpenWithOptions workingDir = Ok repo →
  repo_Worktree repo = Err e →
  Generate rg workingDir opts = Return "" (Some (Wrap e "reading worktree")).
Proof.
  intros H1 H2. unfold GenerateFullyQualifiedImageName. by rewrite H1, H2.
Qed.

Lemma Generate_status_fails rg workingDir opts repo w e :
  PlainOpenWithOptions workingDir = Ok repo →
  repo_Worktree repo = Ok w →
  w_Status w = Err e →
  Generate rg workingDir opts = Return "" (Some (Wrap e "reading status")).
Proof.
  intros H1 H2 H3. unfold GenerateFullyQualifiedImageName.
  by rewrite H1, H2, H3.
Qed.

Lemma Generate_head_fails rg workingDir opts repo w status e :
  PlainOpenWithOptions workingDir = Ok repo →
  repo_Worktree repo = Ok w →
  w_Status w = Ok status →
  repo_Head repo = Err e →
  Generate rg workingDir opts
  = Return "" (Some (Wrap e "determining current git commit")).
Proof.
  intros H1 H2 H3 H4. unfold GenerateFullyQualifiedImageName.
  by rewrite H1, H2, H3, H4.
Qed.

(** An error that ends the iteration over the tags is returned. *)
Lemma Generate_ForEach_fails rg workingDir opts repo w status head
    tagrefs terr e :
  PlainOpenWithOptions workingDir = Ok repo →
  repo_Worktree repo = Ok w →
  w_Status w = Ok status →
  repo_Head repo = Ok head →
  ranges_ok status rg →
  clean status →
  repo_Tags repo = (Some tagrefs, terr) →
  iter_err tagrefs = Some e →
  Generate rg workingDir opts = Return "" (Some (Wrap e "determining git tag")).
Proof.
  intros Hopen Hw Hst Hhead [Hr1 Hr2] Hclean Htags Hend.
  rewrite (Generate_unfold _ _ _ _ _ _ _ Hopen Hw Hst Hhead). cbn zeta.
  rewrite (proj2 (IsClean_clean status _ Hr1) Hclean), Htags. cbn [fst].
  unfold ForEach. by rewrite ForEach_tag_callback, Hend.
Qed.

(** A changed file that cannot be opened or read ends the call. *)
Lemma Generate_read_fails rg workingDir opts repo w status head p e :
  PlainOpenWithOptions workingDir = Ok repo →
  repo_Worktree repo = Ok w →
  w_Status w = Ok status →
  repo_Head repo = Ok head →
  ranges_ok status rg →
  status !! p = Some e →
  Worktree e ≠ Unmodified →
  ¬ readable status w p →
  ∃ cause, Generate rg workingDir opts
           = Return "" (Some (Wrap cause "reading diff")).
Proof.
  intros Hopen Hw Hst Hhead [Hr1 Hr2] Hp Hch Hunread.
  rewrite (Generate_unfold _ _ _ _ _ _ _ Hopen Hw Hst Hhead). cbn zeta.
  rewrite (IsClean_dirty status _ p e) by auto.
  destruct (hashChangedPaths _ _ _ _).1 as [h|o] eqn:Hrun.
  - apply hashChangedPaths_readable in Hrun. destruct Hunread.
    eapply Forall_forall; [exact Hrun|].
    apply (elem_of_changedPaths status); eauto.
  - apply hashChangedPaths_Returned in Hrun
      as [(_ & q & Hq & Hnone)|[cause ->]]; [|eauto].
    apply (elem_of_changedPaths status) in Hq as (e' & He' & _); [|done].
    congruence.
Qed.

(** The call panics only in a clean tree whose [Tags()] gave no
    iterator. *)
Lemma Generate_Panic rg workingDir opts repo w status :
  PlainOpenWithOptions workingDir = Ok repo →
  repo_Worktree repo = Ok w →
  w_Status w = Ok status →
  ranges_ok status rg →
  Generate rg workingDir opts = Panic →
  clean status ∧ (repo_Tags repo).1 = None.
Proof.
  intros Hopen Hw Hst [Hr1 Hr2].
  destruct (repo_Head repo) as [head|e] eqn:Hhead.
  - rewrite (Generate_unfold _ _ _ _ _ _ _ Hopen Hw Hst Hhead). cbn zeta.
    destruct (IsClean (range_IsClean rg)) eqn:Hc.
    + apply (IsClean_clean status) in Hc; [|done].
      destruct (repo_Tags repo).1 as [tagrefs|]; [|done].
      by destruct (ForEach tagrefs _ _) as [tag [err|]].
    + destruct (hashChangedPaths _ _ _ _).1 as [h|o] eqn:Hrun; [done|].
      apply hashChangedPaths_Returned in Hrun
        as [(_ & q & Hq & Hnone)|[cause ->]]; [|done].
      apply (elem_of_changedPaths status) in Hq as (e' & He' & _); [|done].
      congruence.
  - by rewrite (Generate_head_fails _ _ _ _ _ _ _ Hopen Hw Hst Hhead).
Qed.

(** C8. The error of [repo.Tags()] reaches no caller: in a clean tree the
    result of the call is the same whatever error [Tags()] returns beside
    its iterator -- a panic without an iterator, and otherwise what the
    iteration alone decides. *)
Theorem Tags_error_discarded rg workingDir opts repo w status head
    tagrefs terr :
  PlainOpenWithOptions workingDir = Ok repo →
  repo_Worktree repo = Ok w →
  w_Status w = Ok status →
  repo_Head repo = Ok head →
  ranges_ok status rg →
  clean status →
  repo_Tags repo = (tagrefs, Some terr) →
  Generate rg workingDir opts =
    match tagrefs with
    | None => Panic
    | Some it =>
        match iter_err it with
        | Some e => Return "" (Some (Wrap e "determining git tag"))
        | None =>
            Return (ImageName opts +:+ ":" +:+
                      match last (filter (points_at head) (iter_refs it)) with
                      | Some t => Short (Name t)
                      | None => substring 0 7 (Hash_String (Hash_ head))
                      end) None
        end
    end.
Proof.
  intros Hopen Hw Hst Hhead [Hr1 Hr2] Hclean Htags.
  rewrite (Generate_unfold _ _ _ _ _ _ _ Hopen Hw Hst Hhead). cbn zeta.
  rewrite (proj2 (IsClean_clean status _ Hr1) Hclean), Htags. cbn [fst].
  destruct tagrefs as [it|]; [|done].
  unfold ForEach. rewrite ForEach_tag_callback. by destruct (iter_err it).
Qed.

End Properties.

(** C6. A failure of [repo.Tags()] is not returned as an error: the error
    is dropped, and the call on the iterator that is not there panics; with
    an iterator beside the error the call returns a tag and no error. *)
Theorem Tags_failure_not_returned :
  Scenario.run Scenario.clean_status Scenario.tags_fail = Panic
  ∧ Scenario.run Scenario.clean_status
      (Some {| iter_refs := []; iter_err := None |},
       Some (errorString "open .git/packed-refs: permission denied"))
    = Return "myapp:abcdef1" None.
Proof. split; vm_compute; reflexivity. Qed.

(** C3. The order in which [range] walks the status map does not matter:
    the changed paths -- the paths whose worktree code is not unmodified --
    come out in ascending byte-wise order whatever that order is, so the
    list handed to the hashing loop, and with it the run of the loop and the
    bytes fed to the digest, are the same for every iteration order. *)
Theorem changedPaths_order_independent (status : Status) (w : git_Worktree)
    (entries1 entries2 : list (string * FileStatus)) :
  ranges_over status entries1 →
  ranges_over status entries2 →
  changedPaths entries1 = changedPaths entries2
  ∧ Sorted string_le (changedPaths entries1)
  ∧ (∀ p, p ∈ changedPaths entries1 ↔
          ∃ e, status !! p = Some e ∧ Worktree e ≠ Unmodified)
  ∧ hashChangedPaths status w (changedPaths entries1) sha256_New
    = hashChangedPaths status w (changedPaths entries2) sha256_New.
Proof.
  intros H1 H2.
  assert (Heq : changedPaths entries1 = changedPaths entries2).
  { apply changedPaths_perm. by rewrite H1, H2. }
  split; [done|]. split; [apply changedPaths_Sorted|].
  split; [intros p; by apply elem_of_changedPaths|]. by rewrite Heq.
Qed.


(** C10. Neither truncation is out of range: the hexadecimal text of a commit
    identifier, a 20-byte hash, has 40 characters, so [commitHash[0:7]] is
    defined and has 7 characters; the hexadecimal text of a SHA-256 digest
    has 64 characters, so its slice [[:16]] is defined and has 16. *)
Theorem truncations_in_range (commit : Hash) (written : hash_Hash) :
  String.length (Hash_String commit) = 40%nat
  ∧ (∃ currentTag, slice (Hash_String commit) 0 7 = Some currentTag
                   ∧ String.length currentTag = 7%nat)
  ∧ String.length (hex_EncodeToString (Sum written)) = 64%nat
  ∧ (∃ shaStr, slice (hex_EncodeToString (Sum written)) 0 16 = Some shaStr
               ∧ String.length shaStr = 16%nat).
Proof.
  assert (H64 : String.length (hex_EncodeToString (Sum written)) = 64%nat).
  { unfold Sum. by rewrite hex_EncodeToString_length, SHA256_sum_length. }
  split; [apply Hash_String_length|]. split; [|split; [done|]].
  - eexists. split; [apply slice_commitHash|].
    apply substring_length. rewrite Hash_String_length. lia.
  - eexists. split; [apply slice_sha|].
    apply substring_length. rewrite H64. lia.
Qed.

(** ** The tagger on the scenario repository *)

Module ScenarioFacts.
Import Scenario.

Example clean_tagged :
  run clean_status (tags [v0_9; release_1]) = Return "myapp:release-1" None.
Proof. vm_compute. reflexivity. Qed.

Example clean_untagged :
  run clean_status (tags [v0_9]) = Return "myapp:abcdef1" None.
Proof. vm_compute. reflexivity. Qed.

Example clean_two_tags_last_wins :
  run clean_status (tags [release_1; v1_2_3]) = Return "myapp:v1.2.3" None
  ∧ run clean_status (tags [v1_2_3; release_1])
    = Return "myapp:release-1" None.
Proof. split; vm_compute; reflexivity. Qed.

Example dirty :
  run dirty_status (tags [release_1])
  = Return "myapp:abcdef1-dirty-e05a3ab1fc7a0ac5" None.
Proof. vm_compute. reflexivity. Qed.

Example dirty_added_instead_of_modified :
  run (<[ "src/main.go"%string :=
            {| Staging := Added; Worktree := Added |} ]> dirty_status)
      (tags [release_1])
  = Return "myapp:abcdef1-dirty-612437abf6d26ec2" None.
Proof. vm_compute. reflexivity. Qed.

(** [old.txt] is deleted and cannot be opened; without its entry the hash
    is another one. *)
Example dirty_without_the_deleted_file :
  Open "old.txt" = Err not_exist
  ∧ run (delete "old.txt"%string dirty_status) (tags [release_1])
    = Return "myapp:abcdef1-dirty-6c373e7642d85a9f" None.
Proof. split; vm_compute; reflexivity. Qed.

Example staged_only :
  run staged_status (tags [release_1])
  = Return "myapp:abcdef1-dirty-e3b0c44298fc1c14" None.
Proof. vm_compute. reflexivity. Qed.

Example outside_a_repository :
  GenerateFullyQualifiedImageName
    (PlainOpen (repo clean_status (tags []))) Short
    (orders clean_status) "/tmp" opts
  = Return "" (Some (Wrap (errorString "repository does not exist")
                       "opening git repo")).
Proof. vm_compute. reflexivity. Qed.

Example iteration_fails :
  run clean_status
    (Some {| iter_refs := [release_1];
             iter_err := Some (errorString "unexpected EOF") |}, None)
  = Return "" (Some (Wrap (errorString "unexpected EOF") "determining git tag")).
Proof. vm_compute. reflexivity. Qed.

Lemma orders_ok (status : Status) : ranges_ok status (orders status).
Proof. split; unfold ranges_over; [done|]. apply reverse_Permutation. Qed.

Lemma orders'_ok (status : Status) : ranges_ok status (orders' status).
Proof. split; unfold ranges_over; [|done]. apply reverse_Permutation. Qed.

Lemma clean_status_clean : clean clean_status.
Proof.
  unfold clean, clean_status. by intros p e [<- <-]%lookup_singleton_Some.
Qed.

(** Every changed file of the dirty tree that still exists can be read. *)
Lemma dirty_status_readable p e :
  dirty_status !! p = Some e → Worktree e ≠ Unmodified →
  readable dirty_status (worktree dirty_status) p.
Proof.
  revert p e.
  apply (map_Forall_to_list (λ p e, Worktree e ≠ Unmodified →
           readable dirty_status (worktree dirty_status) p)).
  let l := eval vm_compute in (map_to_list dirty_status) in
  change (map_to_list dirty_status) with l.
  repeat constructor; simpl; intros Hch e' He' Hd;
    vm_compute in He'; simplify_eq; try done;
    eexists; (split; [vm_compute; reflexivity|done]).
Qed.

Lemma dirty_tag_witness :
  ∃ paths,
    Sorted string_le paths ∧ NoDup paths ∧
    (∀ p, p ∈ paths ↔
          ∃ e, dirty_status !! p = Some e ∧ Worktree e ≠ Unmodified) ∧
    run dirty_status (tags [release_1]) =
      Return (ImageName opts +:+ ":"
                +:+ substring 0 7 (Hash_String (Hash_ head)) +:+ "-dirty-"
                +:+ dirtyHash_spec dirty_status (worktree dirty_status) paths)
        None.
Proof.
  apply (dirty_tag _ Short (orders dirty_status) "/src/app" opts
           (repo dirty_status (tags [release_1]))
           (worktree dirty_status) dirty_status head);
    [reflexivity..|apply orders_ok| |apply dirty_status_readable].
  exists "src/main.go"%string, {| Staging := Unmodified; Worktree := Modified |}.
  split; [vm_compute; reflexivity|discriminate].
Defined.

Lemma parent_not_commit : parent ≠ commit.
Proof. intros H. apply (f_equal vec_to_list) in H. discriminate H. Qed.

Lemma clean_untagged_tag_witness :
  let shortHash :=
    substring 0 7 (hex_EncodeToString (vec_to_list (Hash_ head))) in
  run clean_status (tags [v0_9])
  = Return (ImageName opts +:+ ":" +:+ shortHash) None
  ∧ String.length shortHash = 7%nat
  ∧ string_forallb is_lower_hex shortHash = true.
Proof.
  apply (clean_untagged_tag _ Short (orders clean_status) "/src/app" opts
           (repo clean_status (tags [v0_9])) (worktree clean_status)
           clean_status head {| iter_refs := [v0_9]; iter_err := None |});
    [reflexivity..|apply orders_ok|apply clean_status_clean
    |reflexivity|reflexivity|].
  repeat constructor. apply parent_not_commit.
Defined.


Lemma changedPaths_order_independent_witness :
  changedPaths (map_to_list dirty_status)
  = changedPaths (reverse (map_to_list dirty_status))
  ∧ Sorted string_le (changedPaths (map_to_list dirty_status))
  ∧ (∀ p, p ∈ changedPaths (map_to_list dirty_status) ↔
          ∃ e, dirty_status !! p = Some e ∧ Worktree e ≠ Unmodified)
  ∧ hashChangedPaths dirty_status (worktree dirty_status)
      (changedPaths (map_to_list dirty_status)) sha256_New
    = hashChangedPaths dirty_status (worktree dirty_status)
        (changedPaths (reverse (map_to_list dirty_status))) sha256_New.
Proof.
  apply (changedPaths_order_independent dirty_status (worktree dirty_status));
    unfold ranges_over.
  - reflexivity.
  - apply reverse_Permutation.
Defined.

Lemma dirty_status_not_clean : ¬ clean dirty_status.
Proof.
  intros Hc.
  destruct (Hc "old.txt"%string
              {| Staging := Unmodified; Worktree := Deleted |}) as [Hw _];
    [vm_compute; reflexivity|discriminate Hw].
Qed.

Lemma dirty_deterministic_witness :
  GenerateFullyQualifiedImageName
    (PlainOpen (repo dirty_status (tags []))) Short
    (orders dirty_status) "/src/app" opts
  = GenerateFullyQualifiedImageName
      (PlainOpen (repo dirty_status (tags []))) Short
      (orders' dirty_status) "/src/app" opts.
Proof.
  apply (dirty_deterministic _ Short (orders dirty_status)
           (orders' dirty_status) "/src/app" opts
           (repo dirty_status (tags [])) (worktree dirty_status) dirty_status);
    [reflexivity..|apply orders_ok|apply orders'_ok
    |apply dirty_status_not_clean].
Defined.


Lemma Tags_error_discarded_witness : run clean_status tags_fail = Panic.
Proof.
  apply (Tags_error_discarded _ Short (orders clean_status) "/src/app" opts
           (repo clean_status tags_fail) (worktree clean_status)
           clean_status head None
           (errorString "open .git/packed-refs: permission denied"));
    [reflexivity..|apply orders_ok|apply clean_status_clean|reflexivity].
Defined.

Lemma staged_status_not_clean : ¬ clean staged_status.
Proof.
  intros Hc.
  destruct (Hc "src/main.go"%string
              {| Staging := Modified; Worktree := Unmodified |}) as [_ Hs];
    [vm_compute; reflexivity|discriminate Hs].
Qed.

Lemma staged_status_worktree p e :
  staged_status !! p = Some e → Worktree e = Unmodified.
Proof.
  revert p e.
  apply (map_Forall_to_list (λ _ e, Worktree e = Unmodified)).
  let l := eval vm_compute in (map_to_list staged_status) in
  change (map_to_list staged_status) with l.
  by repeat constructor.
Qed.

Lemma staged_only_tag_witness :
  changedPaths (range_changedPaths (orders staged_status)) = []
  ∧ substring 0 16 (hex_EncodeToString (SHA256.sum [])) = "e3b0c44298fc1c14"
  ∧ run staged_status (tags [release_1]) =
      Return (ImageName opts +:+ ":"
                +:+ substring 0 7 (Hash_String (Hash_ head))
                +:+ "-dirty-e3b0c44298fc1c14") None.
Proof.
  apply (proj1 (staged_only_tag
                  (PlainOpen (repo staged_status (tags [release_1]))) Short)
           (orders staged_status) "/src/app" opts
           (repo staged_status (tags [release_1]))
           (worktree staged_status) staged_status head);
    [reflexivity..|apply orders_ok|apply staged_status_not_clean
    |apply staged_status_worktree].
Defined.

End ScenarioFacts.

(** * Further properties of the tagger *)

(** ** Strings *)

Lemma append_length (s1 s2 : string) :
  String.length (s1 +:+ s2) = (String.length s1 + String.length s2)%nat.
Proof. induction s1 as [|c s1 IH]; simpl; [done|]. by rewrite IH. Qed.

Lemma append_inj (s a b : string) : s +:+ a = s +:+ b → a = b.
Proof. induction s as [|c s IH]; simpl; [done|]. intros [= H]. by apply IH. Qed.

(** ** The changed paths as a list *)

(** The list [changedPaths] returns is fixed by what it contains. *)
Lemma changedPaths_is (status : Status) entries (paths : list string) :
  ranges_over status entries →
  Sorted string_le paths →
  NoDup paths →
  (∀ p, p ∈ paths ↔ ∃ e, status !! p = Some e ∧ Worktree e ≠ Unmodified) →
  changedPaths entries = paths.
Proof.
  intros Hr Hs Hn Hin.
  apply (Sorted_unique string_le); [apply changedPaths_Sorted|done|].
  apply NoDup_Permutation; [by apply (changedPaths_NoDup status)|done|].
  intros p. by rewrite (elem_of_changedPaths status), Hin.
Qed.

(** The loop over two lists run one after the other. *)
Lemma hashChangedPaths_app (status : Status) w l1 l2 h h1 opened1 :
  hashChangedPaths status w l1 h = (Finished h1, opened1) →
  hashChangedPaths status w (l1 ++ l2) h
  = ((hashChangedPaths status w l2 h1).1,
     opened1 ++ (hashChangedPaths status w l2 h1).2).
Proof.
  revert h opened1. induction l1 as [|p l1 IH]; intros h opened1; simpl.
  - intros [= -> <-]. by destruct (hashChangedPaths status w l2 h1).
  - destruct (status !! p) as [e|]; [|done].
    case_decide as Hdel; [apply IH|].
    destruct (w_Filesystem_Open w p) as [f|err]; [|done].
    unfold io_Copy, Write. destruct (read_err f); [done|].
    destruct (hashChangedPaths status w l1 _) as [exit o1] eqn:Hrun.
    intros [= -> <-]. by rewrite (IH _ _ Hrun).
Qed.

(** The changed paths before a changed path [p]: they are other paths, and
    not above [p]. *)
Lemma changedPaths_split_at (status : Status) entries p e :
  ranges_over status entries →
  status !! p = Some e →
  Worktree e ≠ Unmodified →
  ∃ l1 l2, changedPaths entries = l1 ++ p :: l2
           ∧ ∀ q, q ∈ l1 →
                  q ≠ p ∧ string_le q p
                  ∧ ∃ eq, status !! q = Some eq ∧ Worktree eq ≠ Unmodified.
Proof.
  intros Hr Hp Hch.
  assert (Hin : p ∈ changedPaths entries).
  { apply (elem_of_changedPaths status); eauto. }
  pose proof (changedPaths_Sorted entries) as Hsorted.
  pose proof (changedPaths_NoDup status _ Hr) as Hnodup.
  pose proof (λ q, proj1 (elem_of_changedPaths status _ q Hr)) as Hmem.
  destruct (list_elem_of_split _ _ Hin) as (l1 & l2 & Hsplit).
  rewrite Hsplit in Hsorted, Hnodup, Hmem. exists l1, l2. split; [done|].
  apply Sorted_StronglySorted in Hsorted; [|apply _].
  intros q Hq. split; [|split].
  - intros ->. apply NoDup_app in Hnodup as (_ & Hdisj & _).
    apply (Hdisj p Hq). by left.
  - eapply StronglySorted_app_1_elem_of; [exact Hsorted|done|by left].
  - apply Hmem, elem_of_app. by left.
Qed.

(** The loop stops at the first path that cannot be read, having opened
    the paths before it that are not deleted, and that path. *)
Lemma hashChangedPaths_fails_at (status : Status) w l1 l2 p e cause h :
  Forall (λ q, is_Some (status !! q)) l1 →
  Forall (readable status w) l1 →
  status !! p = Some e →
  Worktree e ≠ Deleted →
  read_failure w p = Some cause →
  hashChangedPaths status w (l1 ++ p :: l2) h
  = (Returned (Return "" (Some (Wrap cause "reading diff"))),
     filter (λ q, ¬ is_deleted status q) l1 ++ [p]).
Proof.
  intros Hdom Hread Hp Hdel Hfail.
  rewrite (hashChangedPaths_app status w l1 (p :: l2) h
             (h ++ concat (fed_bytes status w <$> l1))
             (filter (λ q, ¬ is_deleted status q) l1))
    by by apply hashChangedPaths_Finished.
  cbn [hashChangedPaths]. rewrite Hp. cbn [Write].
  rewrite decide_False by done. unfold read_failure in Hfail.
  destruct (w_Filesystem_Open w p) as [f|err]; [|by simplify_eq].
  unfold io_Copy, Write. by rewrite Hfail.
Qed.

Lemma StronglySorted_filter {A} (R : relation A) (P : A → Prop)
    `{∀ x, Decision (P x)} (l : list A) :
  StronglySorted R l → StronglySorted R (filter P l).
Proof.
  induction 1 as [|x l Hl IH Hx]; [constructor|].
  rewrite filter_cons. case_decide; [|done].
  constructor; [done|]. apply Forall_forall.
  intros y [_ Hy]%list_elem_of_filter. by eapply Forall_forall.
Qed.

(** The call with a pointer to options, once the short hash is known. *)
Lemma Generate_ptr_unfold PlainOpenWithOptions Short rg workingDir opts
    repo w status head :
  PlainOpenWithOptions workingDir = Ok repo →
  repo_Worktree repo = Ok w →
  w_Status w = Ok status →
  repo_Head repo = Ok head →
  GenerateFullyQualifiedImageName_ptr PlainOpenWithOptions Short
    rg workingDir opts =
  let currentTag := substring 0 7 (Hash_String (Hash_ head)) in
  if IsClean (range_IsClean rg) then
    match (repo_Tags repo).1 with
    | None => Panic
    | Some tagrefs =>
        match ForEach tagrefs (tag_callback Short head) currentTag with
        | (_, Some err) => Return "" (Some (Wrap err "determining git tag"))
        | (currentTag, None) =>
            match opts with
            | None => Panic
            | Some opts => Return (ImageName opts +:+ ":" +:+ currentTag) None
            end
        end
    end
  else
    match (hashChangedPaths status w
             (changedPaths (range_changedPaths rg)) sha256_New).1 with
    | Returned o => o
    | Finished h =>
        match opts with
        | None => Panic
        | Some opts =>
            Return (ImageName opts +:+ ":" +:+ currentTag +:+ "-dirty-"
                      +:+ substring 0 16 (hex_EncodeToString (Sum h))) None
        end
    end.
Proof.
  intros Hopen Hw Hst Hhead. unfold GenerateFullyQualifiedImageName_ptr.
  rewrite Hopen, Hw, Hst, Hhead, slice_commitHash. cbn zeta.
  destruct (IsClean (range_IsClean rg)).
  - by destruct (repo_Tags repo) as [tagrefs terr].
  - destruct (hashChangedPaths _ _ _ _).1 as [h|o]; [|done].
    by rewrite slice_sha.
Qed.

(** With options that are there, the pointer makes no difference. *)
Lemma Generate_ptr_Some PlainOpenWithOptions Short rg workingDir opts :
  GenerateFullyQualifiedImageName_ptr PlainOpenWithOptions Short
    rg workingDir (Some opts)
  = GenerateFullyQualifiedImageName PlainOpenWithOptions Short
      rg workingDir opts.
Proof. reflexivity. Qed.

Section MoreProperties.

Variable PlainOpenWithOptions : string → result Repository.
Variable Short : string → string.

Local Abbreviation Generate :=
  (GenerateFullyQualifiedImageName PlainOpenWithOptions Short).

Local Ltac in_list :=
  repeat first [apply list_elem_of_here | apply list_elem_of_further].

(** X1. The call never returns a tag together with an error: a returned
    error comes with the empty string and is wrapped under one of six stage
    labels (the label of the hash's [Write] is never seen), and a result
    without error begins with the image name and a colon. *)
Theorem error_or_tag rg workingDir opts fqn err :
  Generate rg workingDir opts = Return fqn err →
  match err with
  | Some e =>
      fqn = "" ∧ ∃ cause label, e = Wrap cause label ∧ label ∈ returned_labels
  | None => ∃ tag, fqn = ImageName opts +:+ ":" +:+ tag
  end.
Proof.
  unfold GenerateFullyQualifiedImageName, returned_labels.
  assert (Hlabel : ∀ cause label,
            label ∈ returned_labels →
            Return "" (Some (Wrap cause label)) = Return fqn err →
            match err with
            | Some e => fqn = "" ∧ ∃ cause label,
                          e = Wrap cause label ∧ label ∈ returned_labels
            | None => ∃ tag, fqn = ImageName opts +:+ ":" +:+ tag
            end).
  { intros cause label Hin [= <- <-]. eauto. }
  unfold returned_labels in Hlabel.
  destruct (PlainOpenWithOptions workingDir) as [repo|e];
    [|apply Hlabel; in_list].
  destruct (repo_Worktree repo) as [w|e]; [|apply Hlabel; in_list].
  destruct (w_Status w) as [status|e]; [|apply Hlabel; in_list].
  destruct (repo_Head repo) as [head|e]; [|apply Hlabel; in_list].
  rewrite slice_commitHash.
  destruct (IsClean (range_IsClean rg)).
  - destruct (repo_Tags repo) as [[tagrefs|] terr]; [|done].
    destruct (ForEach tagrefs _ _) as [tag [e|]]; [apply Hlabel; in_list|].
    intros [= <- <-]. eauto.
  - destruct (hashChangedPaths _ _ _ _).1 as [h|o] eqn:Hrun.
    + rewrite slice_sha. intros [= <- <-]. eauto.
    + apply hashChangedPaths_Returned in Hrun as [[-> _]|[cause ->]]; [done|].
      apply Hlabel; in_list.
Qed.

(** X2. When the iteration over the tags breaks off with an error, the call
    returns that error under the label "determining git tag" and no tag,
    also when tags pointing at HEAD had been seen before the error. *)
Theorem iteration_error_discards_tag rg workingDir opts repo w status head
    tagrefs terr e :
  PlainOpenWithOptions workingDir = Ok repo →
  repo_Worktree repo = Ok w →
  w_Status w = Ok status →
  repo_Head repo = Ok head →
  ranges_ok status rg →
  clean status →
  repo_Tags repo = (Some tagrefs, terr) →
  iter_err tagrefs = Some e →
  Generate rg workingDir opts = Return "" (Some (Wrap e "determining git tag")).
Proof.
  intros Hopen Hw Hst Hhead [Hr1 Hr2] Hclean Htags Hend.
  rewrite (Generate_unfold _ _ _ _ _ _ _ _ _ Hopen Hw Hst Hhead). cbn zeta.
  rewrite (proj2 (IsClean_clean status _ Hr1) Hclean), Htags. cbn [fst].
  unfold ForEach. by rewrite ForEach_tag_callback, Hend.
Qed.

(** X3. Of the changed files that cannot be read, the one whose path comes
    first in byte-wise order decides the error: when every changed path
    before [p] can be read and opening or reading [p] fails with [cause], the
    call returns [cause] under the label "reading diff", whatever the order
    of the status map and the state of the later paths. *)
Theorem first_unreadable_path_decides rg workingDir opts repo w status head
    p e cause :
  PlainOpenWithOptions workingDir = Ok repo →
  repo_Worktree repo = Ok w →
  w_Status w = Ok status →
  repo_Head repo = Ok head →
  ranges_ok status rg →
  status !! p = Some e →
  Worktree e ≠ Unmodified →
  Worktree e ≠ Deleted →
  read_failure w p = Some cause →
  (∀ q eq, status !! q = Some eq → Worktree eq ≠ Unmodified →
           q ≠ p → string_le q p → readable status w q) →
  Generate rg workingDir opts = Return "" (Some (Wrap cause "reading diff")).
Proof.
  intros Hopen Hw Hst Hhead [Hr1 Hr2] Hp Hch Hdel Hfail Hbefore.
  rewrite (Generate_unfold _ _ _ _ _ _ _ _ _ Hopen Hw Hst Hhead). cbn zeta.
  rewrite (IsClean_dirty status _ p e) by auto.
  destruct (changedPaths_split_at status _ p e Hr2 Hp Hch)
    as (l1 & l2 & -> & Hl1).
  rewrite (hashChangedPaths_fails_at status w l1 l2 p e cause); [done| | |done..].
  - apply Forall_forall. intros q (_ & _ & eq & Heq & _)%Hl1. eauto.
  - apply Forall_forall. intros q (Hne & Hle & eq & Heq & Hcq)%Hl1. eauto.
Qed.

(** X4. With the calls before it succeeding, the call panics in exactly
    three cases: the tree is clean and [Tags()] returned no iterator; [opts]
    is [nil] and the tree is clean with an iterator that ends without error;
    [opts] is [nil] and the tree is not clean with all its changed files
    that are not deleted readable.  So with options that are not [nil] a
    dirty tree never makes it panic, neither at a slice nor at a lookup in
    the status map. *)
Theorem panics_exactly_when rg workingDir (opts : option Options)
    repo w status head :
  PlainOpenWithOptions workingDir = Ok repo →
  repo_Worktree repo = Ok w →
  w_Status w = Ok status →
  repo_Head repo = Ok head →
  ranges_ok status rg →
  GenerateFullyQualifiedImageName_ptr PlainOpenWithOptions Short
    rg workingDir opts = Panic ↔
  (clean status ∧ (repo_Tags repo).1 = None)
  ∨ (opts = None ∧ clean status
     ∧ ∃ tagrefs, (repo_Tags repo).1 = Some tagrefs ∧ iter_err tagrefs = None)
  ∨ (opts = None ∧ ¬ clean status
     ∧ ∀ p e, status !! p = Some e → Worktree e ≠ Unmodified →
              readable status w p).
Proof.
  intros Hopen Hw Hst Hhead [Hr1 Hr2].
  rewrite (Generate_ptr_unfold _ _ _ _ _ _ _ _ _ Hopen Hw Hst Hhead). cbn zeta.
  destruct (IsClean (range_IsClean rg)) eqn:Hc.
  - apply (IsClean_clean status) in Hc; [|done].
    destruct (repo_Tags repo).1 as [tagrefs|]; [|by split; [left|]].
    unfold ForEach. rewrite ForEach_tag_callback.
    destruct (iter_err tagrefs) as [e|] eqn:Hend.
    + split; [done|]. intros [[_ ?]|[(_ & _ & it & [= <-] & ?)|(_ & ? & _)]];
        [done|congruence|done].
    + destruct opts as [o|].
      * split; [done|].
        by intros [[_ ?]|[(? & _)|(? & _)]].
      * split; [|done]. intros _. right. left. eauto.
  - assert (Hdirty : ¬ clean status).
    { intros Hclean.
      pose proof (proj2 (IsClean_clean status _ Hr1) Hclean). congruence. }
    destruct (hashChangedPaths _ _ _ _).1 as [h|o] eqn:Hrun.
    + destruct opts as [o|].
      * split; [done|]. by intros [[? _]|[(? & _)|(? & _)]].
      * split; [|done]. intros _. right. right. split; [done|]. split; [done|].
        intros p e He Hch. apply hashChangedPaths_readable in Hrun.
        eapply Forall_forall; [exact Hrun|].
        apply (elem_of_changedPaths status); eauto.
    + split.
      * apply hashChangedPaths_Returned in Hrun
          as [(_ & q & Hq & Hnone)|[cause ->]]; [|done].
        apply (elem_of_changedPaths status) in Hq as (e' & He' & _); [|done].
        congruence.
      * intros [[? _]|[(_ & ? & _)|(_ & _ & Hread)]]; [done..|].
        rewrite hashChangedPaths_Finished in Hrun; [done| |].
        -- apply Forall_forall. intros q Hq.
           apply (elem_of_changedPaths status) in Hq as (e & He & _); eauto.
        -- apply Forall_forall. intros q Hq.
           apply (elem_of_changedPaths status) in Hq as (e & He & Hch); eauto.
Qed.

(** X5. In a tree that is not clean a tag that is returned has the form
    [imageName:hhhhhhh-dirty-hhhhhhhhhhhhhhhh], with 7 and 16 lower-case
    hexadecimal digits: it is 31 characters longer than the image name. *)
Theorem dirty_tag_format rg workingDir opts repo w status head fqn :
  PlainOpenWithOptions workingDir = Ok repo →
  repo_Worktree repo = Ok w →
  w_Status w = Ok status →
  repo_Head repo = Ok head →
  ranges_ok status rg →
  ¬ clean status →
  Generate rg workingDir opts = Return fqn None →
  (∃ short sha,
     fqn = ImageName opts +:+ ":" +:+ short +:+ "-dirty-" +:+ sha
     ∧ String.length short = 7%nat
     ∧ string_forallb is_lower_hex short = true
     ∧ String.length sha = 16%nat
     ∧ string_forallb is_lower_hex sha = true)
  ∧ String.length fqn = (String.length (ImageName opts) + 31)%nat.
Proof.
  intros Hopen Hw Hst Hhead [Hr1 Hr2] Hdirty.
  rewrite (Generate_unfold _ _ _ _ _ _ _ _ _ Hopen Hw Hst Hhead). cbn zeta.
  destruct (IsClean (range_IsClean rg)) eqn:Hc.
  { by apply (IsClean_clean status) in Hc. }
  destruct (hashChangedPaths _ _ _ _).1 as [h|o] eqn:Hrun.
  - assert (H7 : String.length (substring 0 7 (Hash_String (Hash_ head)))
                 = 7%nat).
    { apply substring_length. rewrite Hash_String_length. lia. }
    assert (H16 : String.length (substring 0 16 (hex_EncodeToString (Sum h)))
                  = 16%nat).
    { apply substring_length. unfold Sum.
      rewrite hex_EncodeToString_length, SHA256_sum_length. lia. }
    assert (Hl7 : string_forallb is_lower_hex
                    (substring 0 7 (Hash_String (Hash_ head))) = true).
    { apply substring_forallb, hex_EncodeToString_lower. }
    assert (Hl16 : string_forallb is_lower_hex
                     (substring 0 16 (hex_EncodeToString (Sum h))) = true).
    { apply substring_forallb, hex_EncodeToString_lower. }
    revert H7 H16 Hl7 Hl16.
    generalize (substring 0 7 (Hash_String (Hash_ head))).
    generalize (substring 0 16 (hex_EncodeToString (Sum h))).
    intros sha short H7 H16 Hl7 Hl16 Heq.
    assert (fqn = ImageName opts +:+ ":" +:+ short +:+ "-dirty-" +:+ sha)
      as -> by congruence.
    split; [by exists short, sha|].
    rewrite !append_length, H7, H16. simpl. lia.
  - apply hashChangedPaths_Returned in Hrun as [[-> _]|[cause ->]]; done.
Qed.

(** X6. The image name is only copied in front of the result.  The call
    with the empty image name returns, when it returns a tag, a text that
    starts with the colon; the call with any other options returns the image
    name followed by that text, panics when [opts] is [nil], and gives the
    same error or panic where the call with the empty name gives one.  The
    name is not inspected. *)
Theorem image_name_is_a_prefix rg workingDir (opts : option Options) :
  let base :=
    GenerateFullyQualifiedImageName_ptr PlainOpenWithOptions Short
      rg workingDir (Some {| ImageName := "" |}) in
  GenerateFullyQualifiedImageName_ptr PlainOpenWithOptions Short
    rg workingDir opts =
    match base with
    | Return tag None =>
        match opts with
        | Some o => Return (ImageName o +:+ tag) None
        | None => Panic
        end
    | o => o
    end
  ∧ (∀ tag, base = Return tag None → ∃ rest, tag = String ":" rest).
Proof.
  intros base. unfold base. clear base.
  unfold GenerateFullyQualifiedImageName_ptr.
  destruct (PlainOpenWithOptions workingDir) as [repo|e]; [|by split].
  destruct (repo_Worktree repo) as [w|e]; [|by split].
  destruct (w_Status w) as [status|e]; [|by split].
  destruct (repo_Head repo) as [head|e]; [|by split].
  rewrite slice_commitHash.
  destruct (IsClean (range_IsClean rg)).
  - destruct (repo_Tags repo) as [[tagrefs|] terr]; [|by split].
    destruct (ForEach tagrefs _ _) as [tag [e|]]; [by split|].
    split; [by destruct opts|]. intros tag' [= <-]. by eexists.
  - destruct (hashChangedPaths _ _ _ _).1 as [h|o] eqn:Hrun.
    + rewrite slice_sha. split; [by destruct opts|].
      intros tag' [= <-]. by eexists.
    + apply hashChangedPaths_Returned in Hrun as [[-> _]|[cause ->]];
        by split.
Qed.

(** X7. A tree whose only changes are deletions is tagged without any file
    being opened: whatever [Filesystem.Open] would do, the call returns the
    tag whose hash is that of the bytes ["D <path>"] of the deleted paths,
    one after the other in ascending order of the paths. *)
Theorem deletions_only_never_fail rg workingDir opts repo w status head :
  PlainOpenWithOptions workingDir = Ok repo →
  repo_Worktree repo = Ok w →
  w_Status w = Ok status →
  repo_Head repo = Ok head →
  ranges_ok status rg →
  ¬ clean status →
  (∀ p e, status !! p = Some e →
          Worktree e = Unmodified ∨ Worktree e = Deleted) →
  ∃ paths,
    Sorted string_le paths
    ∧ NoDup paths
    ∧ (∀ p, p ∈ paths ↔ ∃ e, status !! p = Some e ∧ Worktree e = Deleted)
    ∧ Generate rg workingDir opts =
        Return (ImageName opts +:+ ":"
                  +:+ substring 0 7 (Hash_String (Hash_ head)) +:+ "-dirty-"
                  +:+ substring 0 16
                        (hex_EncodeToString
                           (SHA256.sum
                              (concat ((λ p, "D"%byte :: " "%byte
                                               :: bytes_of_string p)
                                         <$> paths))))) None
    ∧ (hashChangedPaths status w
         (changedPaths (range_changedPaths rg)) sha256_New).2 = [].
Proof.
  intros Hopen Hw Hst Hhead [Hr1 Hr2] Hdirty Honly.
  set (paths := changedPaths (range_changedPaths rg)).
  assert (Hpaths : ∀ p, p ∈ paths ↔ ∃ e, status !! p = Some e
                                         ∧ Worktree e = Deleted).
  { intros p. unfold paths. rewrite (elem_of_changedPaths status) by done.
    split; intros (e & He & Hc); exists e; (split; [done|]).
    - by destruct (Honly p e He).
    - by rewrite Hc. }
  assert (Hrun : hashChangedPaths status w paths sha256_New
                 = (Finished (concat ((λ p, "D"%byte :: " "%byte
                                            :: bytes_of_string p) <$> paths)),
                    [])).
  { rewrite hashChangedPaths_Finished.
    - f_equal.
      + f_equal. simpl. f_equal. apply Forall_fmap_ext, Forall_forall.
        intros p Hp. destruct (proj1 (Hpaths p) Hp) as (e & He & Hd).
        unfold fed_bytes. by rewrite He, Hd, decide_True, app_nil_r.
      + apply elem_of_nil_inv. intros p [Hnd Hp]%list_elem_of_filter.
        destruct (proj1 (Hpaths p) Hp) as (e & He & Hd). apply Hnd.
        unfold is_deleted. by rewrite He, <- Hd.
    - apply Forall_forall. intros p Hp.
      destruct (proj1 (Hpaths p) Hp) as (e & He & Hd). eauto.
    - apply Forall_forall. intros p Hp e He Hnd.
      destruct (proj1 (Hpaths p) Hp) as (e' & He' & Hd). congruence. }
  exists paths. split; [apply changedPaths_Sorted|].
  split; [by apply (changedPaths_NoDup status)|]. split; [done|].
  split; [|by rewrite Hrun].
  rewrite (Generate_unfold _ _ _ _ _ _ _ _ _ Hopen Hw Hst Hhead). cbn zeta.
  destruct (IsClean (range_IsClean rg)) eqn:Hc.
  { by apply (IsClean_clean status) in Hc. }
  fold paths. by rewrite Hrun.
Qed.

End MoreProperties.

(** X8. In a tree that is not clean the tags are never looked at: two
    repositories with the same worktree and the same HEAD give the same
    result whatever [Tags()] returns in each and whatever short names tags
    have.  A failing [Tags()] does no harm there, and a tag at HEAD does not
    show in the result. *)
Theorem dirty_ignores_tags (PlainOpen1 PlainOpen2 : string → result Repository)
    (Short1 Short2 : string → string) rg workingDir opts repo1 repo2 w status :
  PlainOpen1 workingDir = Ok repo1 →
  PlainOpen2 workingDir = Ok repo2 →
  repo_Worktree repo1 = Ok w →
  repo_Worktree repo2 = Ok w →
  repo_Head repo2 = repo_Head repo1 →
  w_Status w = Ok status →
  ranges_ok status rg →
  ¬ clean status →
  GenerateFullyQualifiedImageName PlainOpen1 Short1 rg workingDir opts
  = GenerateFullyQualifiedImageName PlainOpen2 Short2 rg workingDir opts.
Proof.
  intros H1 H2 Hw1 Hw2 Hhead Hst [Hr1 Hr2] Hdirty.
  unfold GenerateFullyQualifiedImageName.
  rewrite H1, H2, Hw1, Hw2, Hst, Hhead.
  destruct (repo_Head repo1) as [head|e]; [|done].
  rewrite slice_commitHash.
  destruct (IsClean (range_IsClean rg)) eqn:Hc; [|done].
  by apply (IsClean_clean status) in Hc.
Qed.

(** X9. In a clean tree no file is opened: two repositories with the same
    status, HEAD and tags give the same result whatever their filesystems
    hold. *)
Theorem clean_reads_no_file (PlainOpen1 PlainOpen2 : string → result Repository)
    (Short : string → string) rg workingDir opts repo1 repo2 w1 w2 status :
  PlainOpen1 workingDir = Ok repo1 →
  PlainOpen2 workingDir = Ok repo2 →
  repo_Worktree repo1 = Ok w1 →
  repo_Worktree repo2 = Ok w2 →
  w_Status w1 = Ok status →
  w_Status w2 = Ok status →
  repo_Head repo2 = repo_Head repo1 →
  repo_Tags repo2 = repo_Tags repo1 →
  ranges_ok status rg →
  clean status →
  GenerateFullyQualifiedImageName PlainOpen1 Short rg workingDir opts
  = GenerateFullyQualifiedImageName PlainOpen2 Short rg workingDir opts.
Proof.
  intros H1 H2 Hw1 Hw2 Hst1 Hst2 Hhead Htags [Hr1 Hr2] Hclean.
  unfold GenerateFullyQualifiedImageName.
  rewrite H1, H2, Hw1, Hw2, Hst1, Hst2, Hhead, Htags.
  destruct (repo_Head repo1) as [head|e]; [|done].
  rewrite slice_commitHash.
  by rewrite (proj2 (IsClean_clean status _ Hr1) Hclean).
Qed.

(** X10. With two tags at HEAD the result depends on the order in which the
    iterator yields them, wherever other tags come in between: the one of
    the two yielded later gives the tag, so two orders that differ in which
    of them comes later give different results when the short names
    differ. *)
Theorem two_tags_order_matters (PlainOpen1 PlainOpen2 : string → result Repository)
    (Short : string → string) rg workingDir opts repo1 repo2 w status head
    refs1 refs2 t1 t2 :
  PlainOpen1 workingDir = Ok repo1 →
  PlainOpen2 workingDir = Ok repo2 →
  repo_Worktree repo1 = Ok w →
  repo_Worktree repo2 = Ok w →
  w_Status w = Ok status →
  repo_Head repo1 = Ok head →
  repo_Head repo2 = Ok head →
  ranges_ok status rg →
  clean status →
  repo_Tags repo1 = (Some {| iter_refs := refs1; iter_err := None |}, None) →
  repo_Tags repo2 = (Some {| iter_refs := refs2; iter_err := None |}, None) →
  filter (λ t, Hash_ t = Hash_ head) refs1 = [t1; t2] →
  filter (λ t, Hash_ t = Hash_ head) refs2 = [t2; t1] →
  Short (Name t1) ≠ Short (Name t2) →
  GenerateFullyQualifiedImageName PlainOpen1 Short rg workingDir opts
  = Return (ImageName opts +:+ ":" +:+ Short (Name t2)) None
  ∧ GenerateFullyQualifiedImageName PlainOpen2 Short rg workingDir opts
    = Return (ImageName opts +:+ ":" +:+ Short (Name t1)) None
  ∧ GenerateFullyQualifiedImageName PlainOpen1 Short rg workingDir opts
    ≠ GenerateFullyQualifiedImageName PlainOpen2 Short rg workingDir opts.
Proof.
  intros H1 H2 Hw1 Hw2 Hst Hh1 Hh2 [Hr1 Hr2] Hclean Ht1 Ht2 Hf1 Hf2 Hne.
  assert (G1 : GenerateFullyQualifiedImageName PlainOpen1 Short rg workingDir opts
               = Return (ImageName opts +:+ ":" +:+ Short (Name t2)) None).
  { rewrite (Generate_unfold _ _ _ _ _ _ _ _ _ H1 Hw1 Hst Hh1). cbn zeta.
    rewrite (proj2 (IsClean_clean status _ Hr1) Hclean), Ht1. cbn [fst].
    unfold ForEach. cbn [iter_refs iter_err]. rewrite ForEach_tag_callback.
    unfold points_at. by rewrite Hf1. }
  assert (G2 : GenerateFullyQualifiedImageName PlainOpen2 Short rg workingDir opts
               = Return (ImageName opts +:+ ":" +:+ Short (Name t1)) None).
  { rewrite (Generate_unfold _ _ _ _ _ _ _ _ _ H2 Hw2 Hst Hh2). cbn zeta.
    rewrite (proj2 (IsClean_clean status _ Hr1) Hclean), Ht2. cbn [fst].
    unfold ForEach. cbn [iter_refs iter_err]. rewrite ForEach_tag_callback.
    unfold points_at. by rewrite Hf2. }
  split; [done|]. split; [done|]. rewrite G1, G2. intros [= Heq].
  apply append_inj in Heq. simpl in Heq. by simplify_eq.
Qed.

(** X11. The bytes fed to the hash do not tell where a file ends: a tree in
    which [a] and [b] are changed, with contents [ca] and [cb], gets the same
    tag as a tree in which only [a] is changed and holds [ca], the status
    line of [b] and [cb] one after the other. *)
Theorem hash_input_runs_together
    (PlainOpen1 PlainOpen2 : string → result Repository)
    (Short : string → string) rg1 rg2 workingDir opts repo1 repo2 w1 w2 head
    (a b : string) (ea eb : FileStatus) (ca cb : list byte) :
  PlainOpen1 workingDir = Ok repo1 →
  PlainOpen2 workingDir = Ok repo2 →
  repo_Worktree repo1 = Ok w1 →
  repo_Worktree repo2 = Ok w2 →
  repo_Head repo1 = Ok head →
  repo_Head repo2 = Ok head →
  w_Status w1 = Ok (<[a := ea]> {[b := eb]}) →
  w_Status w2 = Ok {[a := ea]} →
  ranges_ok (<[a := ea]> {[b := eb]}) rg1 →
  ranges_ok {[a := ea]} rg2 →
  a ≠ b →
  string_le a b →
  Worktree ea ≠ Unmodified → Worktree ea ≠ Deleted →
  Worktree eb ≠ Unmodified → Worktree eb ≠ Deleted →
  w_Filesystem_Open w1 a = Ok {| contents := ca; read_err := None |} →
  w_Filesystem_Open w1 b = Ok {| contents := cb; read_err := None |} →
  w_Filesystem_Open w2 a
  = Ok {| contents := ca ++ bytes_of_string (statusLine (Worktree eb) b) ++ cb;
          read_err := None |} →
  GenerateFullyQualifiedImageName PlainOpen1 Short rg1 workingDir opts
  = GenerateFullyQualifiedImageName PlainOpen2 Short rg2 workingDir opts.
Proof.
  intros H1 H2 Hw1 Hw2 Hh1 Hh2 Hs1 Hs2 [Hc1 Hp1] [Hc2 Hp2] Hab Hle
    Hau Had Hbu Hbd Hoa Hob Hoa2.
  assert (Hla : (<[a := ea]> {[b := eb]} : Status) !! a = Some ea)
    by apply lookup_insert_eq.
  assert (Hlb : (<[a := ea]> {[b := eb]} : Status) !! b = Some eb).
  { rewrite lookup_insert_ne by done. apply lookup_singleton_eq. }
  assert (Hla2 : ({[a := ea]} : Status) !! a = Some ea)
    by apply lookup_singleton_eq.
  assert (Hpaths1 : changedPaths (range_changedPaths rg1) = [a; b]).
  { apply (changedPaths_is (<[a := ea]> {[b := eb]})); [done| | |].
    - by repeat constructor.
    - apply NoDup_cons. split; [by intros ->%list_elem_of_singleton|].
      apply NoDup_singleton.
    - intros p. rewrite !elem_of_cons, elem_of_nil. split.
      + intros [->|[->|[]]]; eauto.
      + intros (e & He & _).
        apply lookup_insert_Some in He as [[<- _]|[_ He]]; [by left|].
        apply lookup_singleton_Some in He as [<- _]. right. by left. }
  assert (Hpaths2 : changedPaths (range_changedPaths rg2) = [a]).
  { apply (changedPaths_is {[a := ea]}); [done| | |].
    - by repeat constructor.
    - apply NoDup_singleton.
    - intros p. rewrite list_elem_of_singleton. split.
      + intros ->. eauto.
      + by intros (e & [<- _]%lookup_singleton_Some & _). }
  rewrite (Generate_unfold _ _ _ _ _ _ _ _ _ H1 Hw1 Hs1 Hh1).
  rewrite (Generate_unfold _ _ _ _ _ _ _ _ _ H2 Hw2 Hs2 Hh2). cbn zeta.
  rewrite (IsClean_dirty _ _ a ea Hc1 Hla) by auto.
  rewrite (IsClean_dirty _ _ a ea Hc2 Hla2) by auto.
  rewrite Hpaths1, Hpaths2. cbn [hashChangedPaths].
  rewrite Hla, Hlb, Hla2. cbn [Write].
  rewrite (decide_False (P := Worktree ea = Deleted)) by done.
  rewrite Hoa, Hoa2. unfold io_Copy, Write. cbn [contents read_err].
  rewrite (decide_False (P := Worktree eb = Deleted)) by done.
  rewrite Hob. cbn [contents read_err fst].
  rewrite (decide_False (P := Worktree ea = Deleted)) by done.
  cbn [fst]. by rewrite <- !app_assoc.
Qed.

(** X12. Entries whose worktree code is unmodified never count, wherever
    they are: two status maps that have the same paths with the same
    worktree codes, apart from paths that are unmodified or missing, give
    the same changed paths and the same run of the hashing loop. *)
Theorem only_changed_entries_count (status1 status2 : Status)
    (entries1 entries2 : list (string * FileStatus)) (w : git_Worktree)
    (h : hash_Hash) :
  ranges_over status1 entries1 →
  ranges_over status2 entries2 →
  (∀ p c, c ≠ Unmodified →
          Worktree <$> status1 !! p = Some c ↔
          Worktree <$> status2 !! p = Some c) →
  changedPaths entries1 = changedPaths entries2
  ∧ hashChangedPaths status1 w (changedPaths entries1) h
    = hashChangedPaths status2 w (changedPaths entries2) h.
Proof.
  intros Hr1 Hr2 Hagree.
  assert (Hmem : ∀ p, (∃ e, status1 !! p = Some e ∧ Worktree e ≠ Unmodified)
                      ↔ ∃ e, status2 !! p = Some e ∧ Worktree e ≠ Unmodified).
  { intros p. split; intros (e & He & Hc).
    - assert (Hx : Worktree <$> status2 !! p = Some (Worktree e))
        by (apply Hagree; [done|by rewrite He]).
      destruct (status2 !! p) as [e2|]; simplify_eq/=. exists e2.
      split; [done|]. congruence.
    - assert (Hx : Worktree <$> status1 !! p = Some (Worktree e))
        by (apply Hagree; [done|by rewrite He]).
      destruct (status1 !! p) as [e1|]; simplify_eq/=. exists e1.
      split; [done|]. congruence. }
  assert (Hpaths : changedPaths entries1 = changedPaths entries2).
  { apply (changedPaths_is status1);
      [done|apply changedPaths_Sorted|by apply (changedPaths_NoDup status2)|].
    intros p. by rewrite (elem_of_changedPaths status2), Hmem. }
  split; [done|]. rewrite <- Hpaths.
  assert (Hall : Forall (λ p, ∃ e1 e2, status1 !! p = Some e1
                                ∧ status2 !! p = Some e2
                                ∧ Worktree e1 = Worktree e2)
                   (changedPaths entries1)).
  { apply Forall_forall. intros p Hp.
    apply (elem_of_changedPaths status1) in Hp as (e1 & He1 & Hc); [|done].
    assert (Hx : Worktree <$> status2 !! p = Some (Worktree e1))
      by (apply Hagree; [done|by rewrite He1]).
    destruct (status2 !! p) as [e2|]; simplify_eq/=. eauto. }
  revert Hall h. generalize (changedPaths entries1). intros paths Hall.
  induction Hall as [|p paths (e1 & e2 & He1 & He2 & Heq) _ IH];
    intros h; [done|].
  cbn [hashChangedPaths]. rewrite He1, He2, Heq.
  cbn [Write]. case_decide; [apply IH|].
  destruct (w_Filesystem_Open w p) as [f|]; [|done].
  unfold io_Copy, Write. destruct (read_err f); [done|]. by rewrite IH.
Qed.


(** X14. When every changed file that is not deleted can be read, the loop
    opens exactly the changed paths that are not deleted, each once and in
    ascending order of the paths. *)
Theorem opens_each_changed_file_once (status : Status) (w : git_Worktree)
    (entries : list (string * FileStatus)) (h : hash_Hash) :
  ranges_over status entries →
  (∀ p e, status !! p = Some e → Worktree e ≠ Unmodified →
          readable status w p) →
  let opened := (hashChangedPaths status w (changedPaths entries) h).2 in
  Sorted string_le opened
  ∧ NoDup opened
  ∧ ∀ p, p ∈ opened ↔
         ∃ e, status !! p = Some e
              ∧ Worktree e ≠ Unmodified ∧ Worktree e ≠ Deleted.
Proof.
  intros Hr Hread opened.
  assert (Hopened : opened
                    = filter (λ p, ¬ is_deleted status p) (changedPaths entries)).
  { unfold opened. rewrite hashChangedPaths_Finished; [done| |].
    - apply Forall_forall. intros q Hq.
      apply (elem_of_changedPaths status) in Hq as (e & He & _); eauto.
    - apply Forall_forall. intros q Hq.
      apply (elem_of_changedPaths status) in Hq as (e & He & Hc); eauto. }
  rewrite Hopened. split; [|split].
  - apply StronglySorted_Sorted, StronglySorted_filter.
    apply Sorted_StronglySorted; [apply _|apply changedPaths_Sorted].
  - by apply NoDup_filter, (changedPaths_NoDup status).
  - intros p. rewrite list_elem_of_filter, (elem_of_changedPaths status) by done.
    unfold is_deleted. split.
    + intros [Hnd (e & He & Hc)]. exists e. split; [done|]. split; [done|].
      intros Hd. apply Hnd. by rewrite He, <- Hd.
    + intros (e & He & Hc & Hd). split; [|eauto].
      rewrite He. simpl. congruence.
Qed.

(** X15. When reading a changed file fails, no path after it is opened: the
    loop ends with that path as the last one opened, and everything opened
    before it is a changed path that is not above it. *)
Theorem nothing_opened_after_failure (status : Status) (w : git_Worktree)
    (entries : list (string * FileStatus)) p e cause :
  ranges_over status entries →
  status !! p = Some e →
  Worktree e ≠ Unmodified →
  Worktree e ≠ Deleted →
  read_failure w p = Some cause →
  (∀ q eq, status !! q = Some eq → Worktree eq ≠ Unmodified →
           q ≠ p → string_le q p → readable status w q) →
  let run := hashChangedPaths status w (changedPaths entries) sha256_New in
  run.1 = Returned (Return "" (Some (Wrap cause "reading diff")))
  ∧ last run.2 = Some p
  ∧ ∀ q, q ∈ run.2 → string_le q p.
Proof.
  intros Hr Hp Hch Hdel Hfail Hbefore run. unfold run.
  destruct (changedPaths_split_at status _ p e Hr Hp Hch)
    as (l1 & l2 & -> & Hl1).
  rewrite (hashChangedPaths_fails_at status w l1 l2 p e cause); [| | |done..].
  - split; [done|]. split; [apply last_snoc|]. cbn [snd].
    intros q [[_ Hq]%list_elem_of_filter|Hq%list_elem_of_singleton]%elem_of_app.
    + by apply Hl1.
    + subst q. by destruct (total string_le p p).
  - apply Forall_forall. intros q (_ & _ & eq & Heq & _)%Hl1. eauto.
  - apply Forall_forall. intros q (Hne & Hle & eq & Heq & Hcq)%Hl1. eauto.
Qed.

(** ** These properties on the scenario repository *)

Module CasesFacts.
Import Scenario Cases.

Lemma in_map_order (status : Status) : ranges_over status (map_to_list status).
Proof. by unfold ranges_over. Qed.

Lemma error_or_tag_witness :
  "" = ""%string
  ∧ ∃ cause label,
      Wrap (errorString "repository does not exist") "opening git repo"
      = Wrap cause label
      ∧ label ∈ returned_labels.
Proof.
  apply (error_or_tag (PlainOpen (repo clean_status (tags []))) Short
           (orders clean_status) "/tmp" opts ""
           (Some (Wrap (errorString "repository does not exist")
                    "opening git repo"))).
  vm_compute. reflexivity.
Defined.

Lemma iteration_error_discards_tag_witness :
  run clean_status
    (Some {| iter_refs := [release_1];
             iter_err := Some (errorString "unexpected EOF") |}, None)
  = Return "" (Some (Wrap (errorString "unexpected EOF") "determining git tag")).
Proof.
  apply (iteration_error_discards_tag _ Short (orders clean_status) "/src/app"
           opts
           (repo clean_status
              (Some {| iter_refs := [release_1];
                       iter_err := Some (errorString "unexpected EOF") |},
               None))
           (worktree clean_status) clean_status head
           {| iter_refs := [release_1];
              iter_err := Some (errorString "unexpected EOF") |} None);
    [reflexivity..|apply ScenarioFacts.orders_ok
    |apply ScenarioFacts.clean_status_clean|reflexivity|reflexivity].
Defined.

(** The changed paths before [src/main.go] can be read on the broken
    filesystem. *)
Lemma broken_before_readable q eq :
  dirty_status !! q = Some eq → Worktree eq ≠ Unmodified →
  q ≠ "src/main.go"%string → string_le q "src/main.go" →
  readable dirty_status (worktree_broken dirty_status) q.
Proof.
  revert q eq.
  apply (map_Forall_to_list (λ q eq, Worktree eq ≠ Unmodified →
           q ≠ "src/main.go"%string → string_le q "src/main.go" →
           readable dirty_status (worktree_broken dirty_status) q)).
  let l := eval vm_compute in (map_to_list dirty_status) in
  change (map_to_list dirty_status) with l.
  repeat constructor; simpl; intros Hch Hne Hle e' He' Hd;
    vm_compute in He'; simplify_eq; try done;
    eexists; (split; [vm_compute; reflexivity|done]).
Qed.

Lemma first_unreadable_path_decides_witness :
  GenerateFullyQualifiedImageName
    (PlainOpen (repo_on (worktree_broken dirty_status) (tags []))) Short
    (orders dirty_status) "/src/app" opts
  = Return "" (Some (Wrap (errorString "input/output error") "reading diff")).
Proof.
  apply (first_unreadable_path_decides _ Short (orders dirty_status) "/src/app"
           opts (repo_on (worktree_broken dirty_status) (tags []))
           (worktree_broken dirty_status) dirty_status head
           "src/main.go" {| Staging := Unmodified; Worktree := Modified |});
    [reflexivity..|apply ScenarioFacts.orders_ok|vm_compute; reflexivity
    |discriminate|discriminate|vm_compute; reflexivity
    |apply broken_before_readable].
Defined.

Lemma panics_exactly_when_witness :
  GenerateFullyQualifiedImageName_ptr
    (PlainOpen (repo dirty_status (tags []))) Short
    (orders dirty_status) "/src/app" None = Panic ↔
  (clean dirty_status ∧ (repo_Tags (repo dirty_status (tags []))).1 = None)
  ∨ (None = @None Options ∧ clean dirty_status
     ∧ ∃ tagrefs, (repo_Tags (repo dirty_status (tags []))).1 = Some tagrefs
                  ∧ iter_err tagrefs = None)
  ∨ (None = @None Options ∧ ¬ clean dirty_status
     ∧ ∀ p e, dirty_status !! p = Some e → Worktree e ≠ Unmodified →
              readable dirty_status (worktree dirty_status) p).
Proof.
  apply (panics_exactly_when _ Short (orders dirty_status) "/src/app" None
           (repo dirty_status (tags [])) (worktree dirty_status)
           dirty_status head);
    [reflexivity..|apply ScenarioFacts.orders_ok].
Defined.

Lemma image_name_is_a_prefix_witness :
  ∃ rest, ":abcdef1-dirty-e05a3ab1fc7a0ac5"%string = String ":" rest.
Proof.
  apply (proj2 (image_name_is_a_prefix
                  (PlainOpen (repo dirty_status (tags []))) Short
                  (orders dirty_status) "/src/app" None)).
  vm_compute. reflexivity.
Defined.

Lemma dirty_tag_format_witness :
  (∃ short sha,
     "myapp:abcdef1-dirty-e05a3ab1fc7a0ac5"%string
     = ImageName opts +:+ ":" +:+ short +:+ "-dirty-" +:+ sha
     ∧ String.length short = 7%nat
     ∧ string_forallb is_lower_hex short = true
     ∧ String.length sha = 16%nat
     ∧ string_forallb is_lower_hex sha = true)
  ∧ String.length "myapp:abcdef1-dirty-e05a3ab1fc7a0ac5"
    = (String.length (ImageName opts) + 31)%nat.
Proof.
  apply (dirty_tag_format (PlainOpen (repo dirty_status (tags [release_1])))
           Short (orders dirty_status) "/src/app" opts
           (repo dirty_status (tags [release_1])) (worktree dirty_status)
           dirty_status head);
    [reflexivity..|apply ScenarioFacts.orders_ok
    |apply ScenarioFacts.dirty_status_not_clean|vm_compute; reflexivity].
Defined.

Lemma deleted_status_not_clean : ¬ clean deleted_status.
Proof.
  intros Hc.
  destruct (Hc "old.txt"%string
              {| Staging := Deleted; Worktree := Deleted |}) as [Hw _];
    [vm_compute; reflexivity|discriminate Hw].
Qed.

Lemma deleted_status_only p e :
  deleted_status !! p = Some e →
  Worktree e = Unmodified ∨ Worktree e = Deleted.
Proof.
  revert p e.
  apply (map_Forall_to_list
           (λ _ e, Worktree e = Unmodified ∨ Worktree e = Deleted)).
  let l := eval vm_compute in (map_to_list deleted_status) in
  change (map_to_list deleted_status) with l.
  repeat (apply Forall_cons; split; [simpl; auto|]). constructor.
Qed.

Lemma deletions_only_never_fail_witness :
  ∃ paths,
    Sorted string_le paths
    ∧ NoDup paths
    ∧ (∀ p, p ∈ paths ↔
            ∃ e, deleted_status !! p = Some e ∧ Worktree e = Deleted)
    ∧ GenerateFullyQualifiedImageName
        (PlainOpen (repo_on (worktree_closed deleted_status) (tags []))) Short
        (orders deleted_status) "/src/app" opts =
        Return (ImageName opts +:+ ":"
                  +:+ substring 0 7 (Hash_String (Hash_ head)) +:+ "-dirty-"
                  +:+ substring 0 16
                        (hex_EncodeToString
                           (SHA256.sum
                              (concat ((λ p, "D"%byte :: " "%byte
                                               :: bytes_of_string p)
                                         <$> paths))))) None
    ∧ (hashChangedPaths deleted_status (worktree_closed deleted_status)
         (changedPaths (range_changedPaths (orders deleted_status)))
         sha256_New).2 = [].
Proof.
  apply (deletions_only_never_fail _ Short (orders deleted_status) "/src/app"
           opts (repo_on (worktree_closed deleted_status) (tags []))
           (worktree_closed deleted_status) deleted_status head);
    [reflexivity..|apply ScenarioFacts.orders_ok
    |apply deleted_status_not_clean|apply deleted_status_only].
Defined.

Lemma dirty_ignores_tags_witness :
  run dirty_status (tags [release_1])
  = GenerateFullyQualifiedImageName
      (PlainOpen (repo dirty_status tags_fail)) (λ name, name)
      (orders dirty_status) "/src/app" opts.
Proof.
  apply (dirty_ignores_tags _ _ Short (λ name, name) (orders dirty_status)
           "/src/app" opts (repo dirty_status (tags [release_1]))
           (repo dirty_status tags_fail) (worktree dirty_status) dirty_status);
    [reflexivity..|apply ScenarioFacts.orders_ok
    |apply ScenarioFacts.dirty_status_not_clean].
Defined.

Lemma clean_reads_no_file_witness :
  run clean_status (tags [release_1])
  = GenerateFullyQualifiedImageName
      (PlainOpen (repo_on (worktree_closed clean_status) (tags [release_1])))
      Short (orders clean_status) "/src/app" opts.
Proof.
  apply (clean_reads_no_file _ _ Short (orders clean_status) "/src/app" opts
           (repo clean_status (tags [release_1]))
           (repo_on (worktree_closed clean_status) (tags [release_1]))
           (worktree clean_status) (worktree_closed clean_status) clean_status);
    [reflexivity..|apply ScenarioFacts.orders_ok
    |apply ScenarioFacts.clean_status_clean].
Defined.

Lemma two_tags_order_matters_witness :
  run clean_status (tags [release_1; v0_9; v1_2_3])
  = Return (ImageName opts +:+ ":" +:+ Short (Name v1_2_3)) None
  ∧ run clean_status (tags [v1_2_3; v0_9; release_1])
    = Return (ImageName opts +:+ ":" +:+ Short (Name release_1)) None
  ∧ run clean_status (tags [release_1; v0_9; v1_2_3])
    ≠ run clean_status (tags [v1_2_3; v0_9; release_1]).
Proof.
  apply (two_tags_order_matters _ _ Short (orders clean_status) "/src/app" opts
           (repo clean_status (tags [release_1; v0_9; v1_2_3]))
           (repo clean_status (tags [v1_2_3; v0_9; release_1]))
           (worktree clean_status) clean_status head
           [release_1; v0_9; v1_2_3] [v1_2_3; v0_9; release_1]
           release_1 v1_2_3);
    [reflexivity..|apply ScenarioFacts.orders_ok
    |apply ScenarioFacts.clean_status_clean
    |reflexivity|reflexivity|vm_compute; reflexivity|vm_compute; reflexivity|].
  vm_compute. discriminate.
Defined.


Lemma hash_input_runs_together_witness :
  GenerateFullyQualifiedImageName
    (PlainOpen (repo_on (files two_files_status
                           (bytes_of_string "1") (bytes_of_string "2"))
                  (tags [])))
    Short (orders two_files_status) "/src/app" opts
  = GenerateFullyQualifiedImageName
      (PlainOpen (repo_on (files one_file_status
                             (bytes_of_string "1"
                                ++ bytes_of_string (statusLine Modified "b.txt")
                                ++ bytes_of_string "2") [])
                    (tags [])))
      Short (orders one_file_status) "/src/app" opts.
Proof.
  apply (hash_input_runs_together _ _ Short (orders two_files_status)
           (orders one_file_status) "/src/app" opts
           (repo_on (files two_files_status
                       (bytes_of_string "1") (bytes_of_string "2")) (tags []))
           (repo_on (files one_file_status
                       (bytes_of_string "1"
                          ++ bytes_of_string (statusLine Modified "b.txt")
                          ++ bytes_of_string "2") []) (tags []))
           (files two_files_status (bytes_of_string "1") (bytes_of_string "2"))
           (files one_file_status
              (bytes_of_string "1"
                 ++ bytes_of_string (statusLine Modified "b.txt")
                 ++ bytes_of_string "2") [])
           head "a.txt" "b.txt" modified modified
           (bytes_of_string "1") (bytes_of_string "2"));
    [reflexivity..|apply ScenarioFacts.orders_ok|apply ScenarioFacts.orders_ok
    |discriminate|vm_compute; reflexivity
    |discriminate|discriminate|discriminate|discriminate
    |reflexivity|reflexivity|reflexivity].
Defined.

Lemma only_changed_entries_count_witness :
  changedPaths (map_to_list dirty_status)
  = changedPaths (map_to_list (delete "README.md"%string dirty_status))
  ∧ hashChangedPaths dirty_status (worktree dirty_status)
      (changedPaths (map_to_list dirty_status)) sha256_New
    = hashChangedPaths (delete "README.md"%string dirty_status)
        (worktree dirty_status)
        (changedPaths (map_to_list (delete "README.md"%string dirty_status)))
        sha256_New.
Proof.
  apply (only_changed_entries_count dirty_status
           (delete "README.md"%string dirty_status));
    [apply in_map_order|apply in_map_order|].
  intros p c Hc. destruct (decide (p = "README.md"%string)) as [->|Hne].
  - rewrite lookup_delete_eq.
    replace (dirty_status !! "README.md"%string) with (Some unmodified)
      by (vm_compute; reflexivity).
    simpl. split; [|done]. intros [= <-]. by destruct Hc.
  - by rewrite lookup_delete_ne.
Defined.


Lemma opens_each_changed_file_once_witness :
  let opened :=
    (hashChangedPaths dirty_status (worktree dirty_status)
       (changedPaths (map_to_list dirty_status)) sha256_New).2 in
  Sorted string_le opened
  ∧ NoDup opened
  ∧ ∀ p, p ∈ opened ↔
         ∃ e, dirty_status !! p = Some e
              ∧ Worktree e ≠ Unmodified ∧ Worktree e ≠ Deleted.
Proof.
  apply (opens_each_changed_file_once dirty_status (worktree dirty_status));
    [apply in_map_order|apply ScenarioFacts.dirty_status_readable].
Defined.

Lemma nothing_opened_after_failure_witness :
  let run :=
    hashChangedPaths dirty_status (worktree_broken dirty_status)
      (changedPaths (map_to_list dirty_status)) sha256_New in
  run.1 = Returned (Return "" (Some (Wrap (errorString "input/output error")
                                       "reading diff")))
  ∧ last run.2 = Some "src/main.go"%string
  ∧ ∀ q, q ∈ run.2 → string_le q "src/main.go".
Proof.
  apply (nothing_opened_after_failure dirty_status
           (worktree_broken dirty_status) _ "src/main.go"
           {| Staging := Unmodified; Worktree := Modified |});
    [apply in_map_order|vm_compute; reflexivity|discriminate|discriminate
    |vm_compute; reflexivity|apply broken_before_readable].
Defined.

End CasesFacts.
